(** * dr-sax: the SAX-driven HTML to Markdown renderer

    A shallow embedding of [lib/drsax.js] and [dialect.js].  The three
    handlers [onopentag], [ontext] and [onclosetag], the end-of-input loop
    [_closeUnclosedTags] and the final clean-up of [write] are transcribed
    statement by statement; the renderer object [this] becomes an explicit
    [State] record that every handler receives and returns.

    The tokenizer (htmlparser2) is an external collaborator: the model
    starts from the ordered list of events it hands to the three handlers. *)

From Stdlib Require Import String Ascii List Bool Arith Lia.
Import ListNotations.
Local Open Scope string_scope.
Local Open Scope list_scope.

(** ** JavaScript values and array primitives used by the renderer *)

Module JS.

(** Outcome of running a piece of JavaScript: a value, or an exception.
    [OutOfFuel] is not a JavaScript outcome; it only marks an exhausted
    iteration bound of the modelled [while] loop (see [closeLoop_fuel],
    which shows that it never shows up). *)
Inductive error := TypeError | OutOfFuel.

Inductive result (A : Type) : Type :=
| Ok (a : A)
| Err (e : error).
Arguments Ok {A} a.
Arguments Err {A} e.

Definition bind {A B} (r : result A) (k : A -> result B) : result B :=
  match r with
  | Ok a => k a
  | Err e => Err e
  end.

(** Line feed and tab, and the two separators the renderer emits. *)
Definition LF : ascii := "010"%char.
Definition TAB : ascii := "009"%char.
Definition SP : ascii := " "%char.
Definition QUOTE : ascii := "034"%char.
Definition nl : string := String LF "".
Definition nlnl : string := String LF (String LF "").
Definition tab : string := String TAB "".

(** [arr.push(x)], [arr.pop()] (used as a statement) and
    [arr.splice(pos, 0, x)].  [pop] leaves an empty array empty and
    [splice] clamps a position beyond the end to the end, as in
    JavaScript. *)
Definition push {A} (arr : list A) (x : A) : list A := arr ++ [x].
Definition pop {A} (arr : list A) : list A := removelast arr.
Definition splice {A} (arr : list A) (pos : nat) (x : A) : list A :=
  firstn pos arr ++ x :: skipn pos arr.

(** Modelled from the spec: [lib/array-last] is not part of the sources at
    hand.  The spec reads it as "the top of" a stack; on an empty array the
    result is [undefined], here [None]. *)
Fixpoint last {A} (arr : list A) : option A :=
  match arr with
  | [] => None
  | [x] => Some x
  | _ :: rest => last rest
  end.

(** A possibly-undefined string used as a property key or as an operand of
    string concatenation: [undefined] becomes the text [undefined]. *)
Definition toStr (v : option string) : string :=
  match v with
  | Some s => s
  | None => "undefined"
  end.

(** Strict equality [===] between two possibly-undefined strings. *)
Definition seq (a b : option string) : bool :=
  match a, b with
  | Some x, Some y => String.eqb x y
  | None, None => true
  | _, _ => false
  end.

(** Truthiness of a possibly-undefined string. *)
Definition truthy (v : option string) : bool :=
  match v with
  | Some s => negb (String.eqb s "")
  | None => false
  end.

(** [v.length > 0]; reading [length] of [undefined] throws. *)
Definition nonEmpty (v : option string) : result bool :=
  match v with
  | Some s => Ok (negb (String.eqb s ""))
  | None => Err TypeError
  end.

(** [arr.join('')] on an array of strings. *)
Definition join (arr : list string) : string := String.concat "" arr.

(** [s.replace(/ab/g, rep)] for a pattern of two literal characters:
    one left-to-right pass; after a match the scan resumes behind the
    matched pair, so the replacement text is never scanned again. *)
Fixpoint replace2 (a b : ascii) (rep : string) (s : string) : string :=
  match s with
  | EmptyString => EmptyString
  | String c rest =>
      match rest with
      | EmptyString => String c EmptyString
      | String d rest' =>
          if Ascii.eqb c a && Ascii.eqb d b
          then rep ++ replace2 a b rep rest'
          else String c (replace2 a b rep rest)
      end
  end.

(** [s.replace(/c/g, '')] for one literal character. *)
Fixpoint remove1 (c : ascii) (s : string) : string :=
  match s with
  | EmptyString => EmptyString
  | String d rest =>
      if Ascii.eqb d c then remove1 c rest else String d (remove1 c rest)
  end.

(** [s.match(/\n$/)] as a truth value: does [s] end with a line feed? *)
Fixpoint endsWithLF (s : string) : bool :=
  match s with
  | EmptyString => false
  | String c EmptyString => Ascii.eqb c LF
  | String _ rest => endsWithLF rest
  end.

End JS.
Import JS.

Declare Scope js_scope.
Delimit Scope js_scope with js.
Notation "x <- c ;; k" := (bind c (fun x => k))
  (at level 61, c at next level, right associativity) : js_scope.
Local Open Scope js_scope.

(** ** Table entries *)

Module Table.

(** The wrapper pair of one attribute key of a tag. *)
Record AttrSpec := { attr_open : string; attr_close : string }.

(** One entry of the table.  [block] is read for its truth value only, so
    an absent [block] is [false]; [indent] is the indent text of a
    container (absent for the other tags); [attrs] keeps the keys in the
    order in which the table lists them, which is the order
    [Object.keys] returns. *)
Record TagSpec := {
  open : string;
  close : string;
  block : bool;
  indent : option string;
  attrs : option (list (string * AttrSpec))
}.

(** What [tagTable[name]] can evaluate to when it is not [undefined]: an
    entry of the table itself, or a member that a plain object inherits
    from [Object.prototype] ([constructor], [__proto__], ...).  Such a
    member is truthy and has none of the properties of a [TagSpec]. *)
Inductive TableEntry :=
| Own (t : TagSpec)
| Inherited.

Definition entryBlock (e : TableEntry) : bool :=
  match e with Own t => block t | Inherited => false end.
Definition entryIndent (e : TableEntry) : option string :=
  match e with Own t => indent t | Inherited => None end.
Definition entryOpen (e : TableEntry) : option string :=
  match e with Own t => Some (open t) | Inherited => None end.
Definition entryClose (e : TableEntry) : option string :=
  match e with Own t => Some (close t) | Inherited => None end.
Definition entryAttrs (e : TableEntry) : option (list (string * AttrSpec)) :=
  match e with Own t => attrs t | Inherited => None end.

Fixpoint assoc {V} (key : string) (l : list (string * V)) : option V :=
  match l with
  | [] => None
  | (k, v) :: rest => if String.eqb k key then Some v else assoc key rest
  end.

End Table.
Import Table.

(** ** The dialect table ([dialect.js]) *)

Module Dialect.

Definition inline (o c : string) : TagSpec :=
  {| open := o; close := c; block := false; indent := None; attrs := None |}.

Definition b := inline "**" "**".
Definition i := inline "*" "*".
Definition img : TagSpec :=
  {| open := "!"; close := ""; block := false; indent := None;
     attrs := Some [("alt", {| attr_open := "["; attr_close := "]" |});
                    ("src", {| attr_open := "("; attr_close := ")" |})] |}.
Definition a : TagSpec :=
  {| open := ""; close := ""; block := false; indent := None;
     attrs := Some [("text", {| attr_open := "["; attr_close := "]" |});
                    ("href", {| attr_open := "("; attr_close := ")" |})] |}.
Definition blockquote : TagSpec :=
  {| open := "> "; close := ""; block := true; indent := Some "> ";
     attrs := None |}.
Definition code : TagSpec :=
  {| open := "```" ++ nl; close := nl ++ "```"; block := true;
     indent := None; attrs := None |}.
Definition pre := inline "`" "`".
Definition p : TagSpec :=
  {| open := ""; close := ""; block := true; indent := None;
     attrs := None |}.
Definition ol : TagSpec :=
  {| open := ""; close := ""; block := true; indent := Some tab;
     attrs := None |}.
Definition ul : TagSpec :=
  {| open := ""; close := ""; block := true; indent := Some tab;
     attrs := None |}.
Definition olli := inline "1. " nl.
Definition ulli := inline "* " nl.
Definition hr : TagSpec :=
  {| open := "- - -"; close := ""; block := true; indent := None;
     attrs := None |}.
Definition h1 := inline "# " nl.
Definition h2 := inline "## " nl.
Definition h3 := inline "### " nl.
Definition h4 := inline "#### " nl.
Definition h5 := inline "##### " nl.
Definition h6 := inline "###### " nl.

(** The own properties of the exported object, in source order. *)
Definition entries : list (string * TagSpec) :=
  [("b", b); ("i", i); ("img", img); ("a", a);
   ("blockquote", blockquote); ("code", code); ("pre", pre); ("p", p);
   ("ol", ol); ("ul", ul); ("olli", olli); ("ulli", ulli); ("hr", hr);
   ("h1", h1); ("h2", h2); ("h3", h3); ("h4", h4); ("h5", h5);
   ("h6", h6)].

(** Names that every object literal inherits from [Object.prototype]. *)
Definition inheritedKeys : list string :=
  ["constructor"; "toString"; "toLocaleString"; "valueOf";
   "hasOwnProperty"; "isPrototypeOf"; "propertyIsEnumerable";
   "__proto__"; "__defineGetter__"; "__defineSetter__";
   "__lookupGetter__"; "__lookupSetter__"].

(** [defaultDialect[name]]: own entries first, then the prototype. *)
Definition defaultDialect (name : string) : option TableEntry :=
  match assoc name entries with
  | Some t => Some (Own t)
  | None =>
      if existsb (String.eqb name) inheritedKeys
      then Some Inherited else None
  end.

End Dialect.

(** ** Render state and events *)

(** The attributes of an open event, as the tokenizer's key/value object. *)
Definition Attrs := list (string * string).

(** [Object.keys(attrs).indexOf(key) !== -1] together with the read
    [attrs[key]] that follows it: the value stored under [key], if any. *)
Definition attrValue (key : string) (attrs : Attrs) : option string :=
  assoc key attrs.

(** The fields that [_init] sets on the renderer.  [tag] holds what the last
    open event read from the table ([None] is [undefined]). *)
Record State := {
  stack : list string;
  splicePos : nat;
  spliceStack : list string;
  listStack : list string;
  trimNL : bool;
  tagStack : list string;
  ignoreClose : bool;
  indentStack : list string;
  tag : option TableEntry
}.

Definition _init : State :=
  {| stack := []; splicePos := 0; spliceStack := []; listStack := [];
     trimNL := false; tagStack := []; ignoreClose := false;
     indentStack := []; tag := None |}.

Definition setStack (v : list string) (s : State) : State :=
  {| stack := v; splicePos := splicePos s; spliceStack := spliceStack s;
     listStack := listStack s; trimNL := trimNL s; tagStack := tagStack s;
     ignoreClose := ignoreClose s; indentStack := indentStack s;
     tag := tag s |}.
Definition setSplicePos (v : nat) (s : State) : State :=
  {| stack := stack s; splicePos := v; spliceStack := spliceStack s;
     listStack := listStack s; trimNL := trimNL s; tagStack := tagStack s;
     ignoreClose := ignoreClose s; indentStack := indentStack s;
     tag := tag s |}.
Definition setSpliceStack (v : list string) (s : State) : State :=
  {| stack := stack s; splicePos := splicePos s; spliceStack := v;
     listStack := listStack s; trimNL := trimNL s; tagStack := tagStack s;
     ignoreClose := ignoreClose s; indentStack := indentStack s;
     tag := tag s |}.
Definition setListStack (v : list string) (s : State) : State :=
  {| stack := stack s; splicePos := splicePos s; spliceStack := spliceStack s;
     listStack := v; trimNL := trimNL s; tagStack := tagStack s;
     ignoreClose := ignoreClose s; indentStack := indentStack s;
     tag := tag s |}.
Definition setTrimNL (v : bool) (s : State) : State :=
  {| stack := stack s; splicePos := splicePos s; spliceStack := spliceStack s;
     listStack := listStack s; trimNL := v; tagStack := tagStack s;
     ignoreClose := ignoreClose s; indentStack := indentStack s;
     tag := tag s |}.
Definition setTagStack (v : list string) (s : State) : State :=
  {| stack := stack s; splicePos := splicePos s; spliceStack := spliceStack s;
     listStack := listStack s; trimNL := trimNL s; tagStack := v;
     ignoreClose := ignoreClose s; indentStack := indentStack s;
     tag := tag s |}.
Definition setIgnoreClose (v : bool) (s : State) : State :=
  {| stack := stack s; splicePos := splicePos s; spliceStack := spliceStack s;
     listStack := listStack s; trimNL := trimNL s; tagStack := tagStack s;
     ignoreClose := v; indentStack := indentStack s; tag := tag s |}.
Definition setIndentStack (v : list string) (s : State) : State :=
  {| stack := stack s; splicePos := splicePos s; spliceStack := spliceStack s;
     listStack := listStack s; trimNL := trimNL s; tagStack := tagStack s;
     ignoreClose := ignoreClose s; indentStack := v; tag := tag s |}.
Definition setTag (v : option TableEntry) (s : State) : State :=
  {| stack := stack s; splicePos := splicePos s; spliceStack := spliceStack s;
     listStack := listStack s; trimNL := trimNL s; tagStack := tagStack s;
     ignoreClose := ignoreClose s; indentStack := indentStack s; tag := v |}.

(** The three kinds of parse event. *)
Inductive Event :=
| Open (name : string) (attrs : Attrs)
| Text (text : string)
| Close (name : string).


(** ** The handlers of [lib/drsax.js] *)

Section Renderer.

(** [this.tagTable]: the default dialect or the one given in the options. *)
Variable tagTable : string -> option TableEntry.
(** [this.options.stripTags] as a truth value. *)
Variable stripTags : bool.
(** [lib/rebuild-tag] and [lib/repeat] are not part of the sources at hand;
    the handlers are parametric in them.  [rebuildTag] receives the name, the
    attributes and the phase, the last two [undefined] on the close path. *)
Variable rebuildTag : string -> option Attrs -> option string -> string.
Variable repeat : option string -> nat -> string.

(** *** [onopentag] *)

(** [if(name === 'li'){ this.trimNL = true; name = last(this.listStack)+'li'; }] *)
Definition openName (name : string) (s : State) : string * State :=
  if (name =? "li")%string
  then ((toStr (last (listStack s)) ++ "li")%string, setTrimNL true s)
  else (name, s).

(** [if(name === 'ol' || name === 'ul'){ this.listStack.push(name); }] *)
Definition pushList (name : string) (s : State) : State :=
  if (name =? "ol")%string || (name =? "ul")%string
  then setListStack (push (listStack s) name) s
  else s.

(** [if(name === 'code' && last(this.tagStack) === 'pre'){
       this.ignoreClose = true; this.stack.pop(); }]
    It runs after [name] has been pushed onto [tagStack]. *)
Definition collapsePre (name : string) (s : State) : State :=
  if (name =? "code")%string && seq (last (tagStack s)) (Some "pre")
  then setStack (pop (stack s)) (setIgnoreClose true s)
  else s.

(** [if(this.tag.block && last(this.stack) !== '\n\n' && this.stack.length > 0)]
    pushes a blank line, or one line feed inside an indented context. *)
Definition blockSpacing (tg : TableEntry) (s : State) : State :=
  if entryBlock tg && negb (seq (last (stack s)) (Some nlnl))
     && (0 <? length (stack s))%nat
  then
    if (length (indentStack s) =? 0)%nat
    then setStack (push (stack s) nlnl) s
    else setStack (push (stack s) nl) s
  else s.

(** [if(this.indentStack.length > 0){
       var indentTag = this.tagTable[last(this.indentStack)];
       var indentText = repeat(indentTag.indent, this.indentStack.length);
       this.stack.push(indentText); }]
    Reading [indent] of an [undefined] entry throws. *)
Definition indentPrefix (s : State) : result State :=
  if (0 <? length (indentStack s))%nat
  then
    match tagTable (toStr (last (indentStack s))) with
    | None => Err TypeError
    | Some indentTag =>
        let indentText :=
          repeat (entryIndent indentTag) (length (indentStack s)) in
        Ok (setStack (push (stack s) indentText) s)
    end
  else Ok s.

(** [if(this.tag.indent){ if(this.listStack.length !== 1){
       this.indentStack.push(name); } }] *)
Definition pushIndent (tg : TableEntry) (name : string) (s : State) : State :=
  if truthy (entryIndent tg)
  then
    if negb (length (listStack s) =? 1)%nat
    then setIndentStack (push (indentStack s) name) s
    else s
  else s.

(** [if(this.tag.open.length > 0){ ... }]: the open marker is spliced in at
    [splicePos] while a tag is deferring, and pushed otherwise. *)
Definition emitOpen (tg : TableEntry) (s : State) : result State :=
  match entryOpen tg with
  | None => Err TypeError
  | Some o =>
      if negb (o =? "")%string
      then
        if (0 <? length (spliceStack s))%nat
        then Ok (setSplicePos (S (splicePos s))
                   (setStack (splice (stack s) (splicePos s) o) s))
        else Ok (setStack (push (stack s) o) s)
      else Ok s
  end.

(** The body of the [for] loop over [Object.keys(this.tag.attrs)]. *)
Definition attrStep (name : string) (attrs : Attrs)
    (key : string) (a : AttrSpec) (s : State) : State :=
  let s := setStack (push (stack s) (attr_open a)) s in
  let s :=
    if (key =? "text")%string
    then setSpliceStack (push (spliceStack s) name)
           (setSplicePos (length (stack s)) s)
    else
      match attrValue key attrs with
      | Some v => setStack (push (stack s) v) s
      | None => s
      end in
  setStack (push (stack s) (attr_close a)) s.

Fixpoint attrLoop (name : string) (attrs : Attrs)
    (keys : list (string * AttrSpec)) (s : State) : State :=
  match keys with
  | [] => s
  | (key, a) :: rest => attrLoop name attrs rest (attrStep name attrs key a s)
  end.

Definition onopentag (name : string) (attrs : Attrs) (s : State)
  : result State :=
  let origName := name in
  let '(name, s) := openName name s in
  let s := setTag (tagTable name) s in
  match tag s with
  | Some tg =>
      let s := setTagStack (push (tagStack s) name) s in
      let s := pushList name s in
      let s := collapsePre name s in
      let s := blockSpacing tg s in
      s <- indentPrefix s ;;
      let s := pushIndent tg name s in
      s <- emitOpen tg s ;;
      Ok (match entryAttrs tg with
          | Some keys => attrLoop name attrs keys s
          | None => s
          end)
  | None =>
      Ok (if negb stripTags
          then setStack
                 (push (stack s) (rebuildTag origName (Some attrs) (Some "open")))
                 s
          else s)
  end.

(** *** [ontext] *)

(** The handler reads [this.text], a property that nothing ever assigns on
    the renderer or on its prototype: it evaluates to [undefined]. *)
Definition this_text : option string := None.

(** [if(this.tag && this.tag.block && last(this.stack) !== this.tag.open
        && this.tag.close !== false){ this.stack.push(this.tag.open); }]
    Only an own entry can have a true [block]; its [close] is a string, so
    the last comparison holds. *)
Definition reopenBlock (s : State) : State :=
  match tag s with
  | Some (Own t) =>
      if block t && negb (seq (last (stack s)) (Some (open t))) && true
      then setStack (push (stack s) (open t)) s
      else s
  | Some Inherited => s
  | None => s
  end.

(** [this.trimNL || (this.text === '\n' && last(this.stack).match(/\n$/))];
    [match] on an [undefined] last fragment would throw. *)
Definition trimCondition (s : State) : result bool :=
  if trimNL s then Ok true
  else if seq this_text (Some nl)
  then
    match last (stack s) with
    | Some fragment => Ok (endsWithLF fragment)
    | None => Err TypeError
    end
  else Ok false.

Definition ontext (text : string) (s : State) : result State :=
  let s := reopenBlock s in
  if (0 <? length (spliceStack s))%nat
  then Ok (setSplicePos (S (splicePos s))
             (setStack (splice (stack s) (splicePos s) text) s))
  else
    c <- trimCondition s ;;
    let text := if (c : bool) then remove1 LF text else text in
    Ok (setStack (push (stack s) text) s).

(** *** [onclosetag] *)

(** [if(name === 'ol' || name === 'ul'){ this.listStack.pop(); }] *)
Definition popList (name : string) (s : State) : State :=
  if (name =? "ol")%string || (name =? "ul")%string
  then setListStack (pop (listStack s)) s
  else s.

(** [if(name === 'li'){ this.trimNL = false; name = last(this.listStack)+'li'; }] *)
Definition closeName (name : string) (s : State) : string * State :=
  if (name =? "li")%string
  then ((toStr (last (listStack s)) ++ "li")%string, setTrimNL false s)
  else (name, s).

(** [if(!this.ignoreClose && tag.close.length > 0){ ... }]: the close marker
    is spliced in at [splicePos] while a tag is deferring, and pushed
    otherwise.  [splicePos] is not touched. *)
Definition emitClose (tg : TableEntry) (s : State) : result State :=
  if negb (ignoreClose s)
  then
    match entryClose tg with
    | None => Err TypeError
    | Some c =>
        if negb (c =? "")%string
        then
          if (0 <? length (spliceStack s))%nat
          then Ok (setStack (splice (stack s) (splicePos s) c) s)
          else Ok (setStack (push (stack s) c) s)
        else Ok s
    end
  else Ok s.

(** [if(tag.indent){ this.indentStack.pop(); }] *)
Definition popIndent (tg : TableEntry) (s : State) : State :=
  if truthy (entryIndent tg)
  then setIndentStack (pop (indentStack s)) s
  else s.

(** [if(last(this.spliceStack) === name){ this.spliceStack.pop(); }] *)
Definition popSplice (name : string) (s : State) : State :=
  if seq (last (spliceStack s)) (Some name)
  then setSpliceStack (pop (spliceStack s)) s
  else s.

(** [if(tag.block){ ... }]: a blank line, or one line feed while still inside
    an indented context. *)
Definition closeSpacing (tg : TableEntry) (s : State) : State :=
  if entryBlock tg
  then
    if (length (indentStack s) <? 1)%nat
    then setStack (push (stack s) nlnl) s
    else setStack (push (stack s) nl) s
  else s.

(** [if(last(this.tagStack) === name){ this.tagStack.pop(); }] *)
Definition popTag (name : string) (s : State) : State :=
  if seq (last (tagStack s)) (Some name)
  then setTagStack (pop (tagStack s)) s
  else s.

(** [if(this.ignoreClose){ this.ignoreClose = false; }] *)
Definition resetIgnoreClose (s : State) : State :=
  if ignoreClose s then setIgnoreClose false s else s.

Definition onclosetag (name : string) (s : State) : result State :=
  let origName := name in
  let s := popList name s in
  let '(name, s) := closeName name s in
  s <- match tagTable name with
       | Some tg =>
           s <- emitClose tg s ;;
           let s := popIndent tg s in
           let s := popSplice name s in
           let s := closeSpacing tg s in
           Ok (popTag name s)
       | None =>
           Ok (if negb stripTags
               then setStack (push (stack s) (rebuildTag origName None None)) s
               else s)
       end ;;
  Ok (resetIgnoreClose s).

(** *** Event dispatch *)

(** The parser calls the handler bound to the kind of each event. *)
Definition handle (e : Event) (s : State) : result State :=
  match e with
  | Open name attrs => onopentag name attrs s
  | Text text => ontext text s
  | Close name => onclosetag name s
  end.

(** Events are handled in order; an exception ends the run. *)
Fixpoint run (events : list Event) (s : State) : result State :=
  match events with
  | [] => Ok s
  | e :: rest => s' <- handle e s ;; run rest s'
  end.

(** *** [_closeUnclosedTags] and [write] *)

(** The [while (tag)] loop.  [tag] is what the preceding
    [this.tagStack.pop()] returned; the loop stops on [undefined] and on the
    empty string.  Besides the final state the model returns the names
    handed to [onclosetag], in call order.  Every iteration removes at least
    one name from [tagStack], which bounds the iterations by [fuel]. *)
Fixpoint closeLoop (fuel : nat) (tag : option string) (s : State)
  : result (list string * State) :=
  if truthy tag
  then
    match fuel with
    | O => Err OutOfFuel
    | S fuel' =>
        s1 <- onclosetag (toStr tag) s ;;
        r <- closeLoop fuel' (last (tagStack s1))
               (setTagStack (pop (tagStack s1)) s1) ;;
        Ok (toStr tag :: fst r, snd r)
    end
  else Ok ([], s).

Definition _closeUnclosedTags (s : State) : result (list string * State) :=
  closeLoop (length (tagStack s)) (last (tagStack s))
    (setTagStack (pop (tagStack s)) s).

(** [this.stack.join('').replace(/\ \ /g, ' ').replace(/\ \n/g, '\n')] *)
Definition cleanup (joined : string) : string :=
  replace2 SP LF nl (replace2 SP SP " " joined).

(** [html.replace(/\n/g, '').replace(/\t/g, '')], applied to the raw markup
    before it reaches the tokenizer. *)
Definition stripRaw (html : string) : string :=
  remove1 TAB (remove1 LF html).

(** [write], from the events that the parser delivers for the markup up to
    and including [parser.end()]: run the handlers from the reset state,
    close what is still on [tagStack], join and clean the buffer.  The final
    [_init] only resets the renderer and does not affect the result. *)
Definition write (events : list Event) : result string :=
  s <- run events _init ;;
  s <- (if (0 <? length (tagStack s))%nat
        then r <- _closeUnclosedTags s ;; Ok (snd r)
        else Ok s) ;;
  Ok (cleanup (join (stack s))).

End Renderer.

(** ** The renderer with its default options *)

(** Modelled from the spec: [lib/rebuild-tag] is not part of the sources at
    hand.  The spec has it rebuild the literal text of a tag: the name with
    its attributes between angle brackets for the open phase, the name after
    a slash otherwise. *)
Definition rebuildTag (name : string) (attrs : option Attrs)
    (phase : option string) : string :=
  if seq phase (Some "open")
  then
    let attr (kv : string * string) : string :=
      (" " ++ fst kv ++ "=" ++ String QUOTE (snd kv ++ String QUOTE ""))%string in
    let given : Attrs := match attrs with Some l => l | None => [] end in
    ("<" ++ name ++ String.concat "" (map attr given) ++ ">")%string
  else ("</" ++ name ++ ">")%string.

(** Modelled from the spec: [lib/repeat] is not part of the sources at hand.
    The spec has it repeat the indent unit the given number of times; the
    unit enters the text as string concatenation would take it. *)
Fixpoint repeat (unit : option string) (n : nat) : string :=
  match n with
  | O => ""
  | S n' => (toStr unit ++ repeat unit n')%string
  end.

Module Default.

Definition onopentag := onopentag Dialect.defaultDialect false rebuildTag repeat.
Definition ontext := ontext.
Definition onclosetag := onclosetag Dialect.defaultDialect false rebuildTag.
Definition run := run Dialect.defaultDialect false rebuildTag repeat.
Definition _closeUnclosedTags :=
  _closeUnclosedTags Dialect.defaultDialect false rebuildTag.
Definition write := write Dialect.defaultDialect false rebuildTag repeat.

End Default.

(** ** Notions used in the statements *)

(** The name that [onclosetag] looks up in the table for a close event:
    the event's name, or the current list kind followed by [li]. *)
Definition closeEffective (name : string) (s : State) : string :=
  fst (closeName name (popList name s)).

(** [s'] differs from [s] at most in the output buffer, the splice
    bookkeeping and the current tag. *)
Definition sameNesting (s s' : State) : Prop :=
  tagStack s' = tagStack s /\ indentStack s' = indentStack s /\
  listStack s' = listStack s /\ trimNL s' = trimNL s /\
  ignoreClose s' = ignoreClose s.

(** How many of the names are containers with an indent text. *)
Definition indentable (tagTable : string -> option TableEntry)
    (name : string) : bool :=
  match tagTable name with
  | Some tg => truthy (entryIndent tg)
  | None => false
  end.

Definition countIndent (tagTable : string -> option TableEntry)
    (names : list string) : nat :=
  length (filter (indentable tagTable) names).

(** The state in which [onopentag] starts emitting output for a mapped
    tag: the name is resolved and pushed, the list kind recorded. *)
Definition opened (name : string) (tg : TableEntry) (s : State) : State :=
  let '(name', s1) := openName name s in
  pushList name'
    (setTagStack (push (tagStack s1) name') (setTag (Some tg) s1)).

(** The renderer inside the first item of an unordered list: the state
    after [<ul><li>]. *)
Definition inListItem : State :=
  {| stack := ["* "]; splicePos := 0; spliceStack := [];
     listStack := ["ul"]; trimNL := true; tagStack := ["ul"; "ulli"];
     ignoreClose := false; indentStack := [];
     tag := Some (Own Dialect.ulli) |}.

(** The renderer inside [<a href="u"><b>x], about to close the [b]. *)
Definition inAnchorBold : State :=
  {| stack := ["["; "**"; "x"; "]"; "("; "u"; ")"]; splicePos := 3;
     spliceStack := ["a"]; listStack := []; trimNL := false;
     tagStack := ["a"; "b"]; ignoreClose := false; indentStack := [];
     tag := Some (Own Dialect.b) |}.

(** The renderer inside [<blockquote><blockquote><b>x]. *)
Definition inNestedQuote : State :=
  {| stack := ["> "; nl; "> "; "> "; "> > "; "**"; "x"]; splicePos := 0;
     spliceStack := []; listStack := []; trimNL := false;
     tagStack := ["blockquote"; "blockquote"; "b"]; ignoreClose := false;
     indentStack := ["blockquote"; "blockquote"];
     tag := Some (Own Dialect.b) |}.

(** The text that a possibly-undefined attribute value contributes to the
    joined buffer: a value that was never pushed contributes nothing. *)
Definition orEmpty (v : option string) : string :=
  match v with
  | Some x => x
  | None => ""
  end.

(** Does the character occur in the string? *)
Fixpoint contains (c : ascii) (s : string) : bool :=
  match s with
  | EmptyString => false
  | String d rest => Ascii.eqb d c || contains c rest
  end.

(** No space of the string is followed by a space or by a line feed. *)
Fixpoint tidy (s : string) : bool :=
  match s with
  | EmptyString => true
  | String c rest =>
      match rest with
      | EmptyString => true
      | String d _ =>
          negb (Ascii.eqb c SP && (Ascii.eqb d SP || Ascii.eqb d LF))
          && tidy rest
      end
  end.

(** The name carried by an open or close event. *)
Definition eventName (e : Event) : option string :=
  match e with
  | Open name _ => Some name
  | Text _ => None
  | Close name => Some name
  end.

(** The table maps the name to one of its own entries, or to nothing. *)
Definition ownOrAbsent (tagTable : string -> option TableEntry)
    (name : string) : Prop :=
  tagTable name <> Some Inherited.

(** The name of the event, if it has one, is no member inherited from
    [Object.prototype]. *)
Definition plainName (e : Event) : bool :=
  match eventName e with
  | Some name => negb (existsb (String.eqb name) Dialect.inheritedKeys)
  | None => true
  end.

(** The table maps the name to something. *)
Definition mapped (tagTable : string -> option TableEntry)
    (name : string) : bool :=
  match tagTable name with
  | Some _ => true
  | None => false
  end.

(** The two kinds of list container. *)
Definition listKind (name : string) : bool :=
  String.eqb name "ol" || String.eqb name "ul".

(** No two neighbours of the list are equal. *)
Fixpoint adjacentDistinct (names : list string) : bool :=
  match names with
  | [] => true
  | x :: rest =>
      match rest with
      | [] => true
      | y :: _ => negb (String.eqb x y) && adjacentDistinct rest
      end
  end.

(** Does the string end with [li]? *)
Fixpoint endsWithLi (s : string) : bool :=
  match s with
  | EmptyString => false
  | String c rest =>
      match rest with
      | String d EmptyString => Ascii.eqb c "l" && Ascii.eqb d "i"
      | _ => endsWithLi rest
      end
  end.

(** From [s] to [s'] the buffer has not lost a fragment, and an insertion
    point that lay within the buffer still does and has not moved back. *)
Definition grows (s s' : State) : Prop :=
  length (stack s) <= length (stack s') /\
  (splicePos s <= length (stack s) ->
   splicePos s' <= length (stack s') /\ splicePos s <= splicePos s').

(** The table maps the name to one of its own entries. *)
Definition owned (tagTable : string -> option TableEntry)
    (name : string) : bool :=
  match tagTable name with
  | Some (Own _) => true
  | _ => false
  end.

(** Every name on [tagStack] and on [spliceStack] is mapped by the table to
    one of its own entries, every name on [indentStack] is an indentable
    container, and [listStack] holds list kinds only. *)
Definition namesKept (tagTable : string -> option TableEntry) (s : State)
  : Prop :=
  Forall (fun n => owned tagTable n = true) (tagStack s) /\
  Forall (fun n => indentable tagTable n = true) (indentStack s) /\
  Forall (fun n => listKind n = true) (listStack s) /\
  Forall (fun n => owned tagTable n = true) (spliceStack s).

(** A table with the entries of the default dialect and no prototype
    behind it, as a dialect object made by [Object.create(null)] would be. *)
Definition bareDialect (name : string) : option TableEntry :=
  match assoc name Dialect.entries with
  | Some t => Some (Own t)
  | None => None
  end.

(** A dialect handed to the constructor as [options.dialect]: the entries
    of the default dialect without the one for [ul]. *)
Definition dialectWithoutUl (name : string) : option TableEntry :=
  if String.eqb name "ul" then None else Dialect.defaultDialect name.

(** The events of the balanced markup
    [<ol><li><span><li><ul></ul></li></span></li></ol>]; the [span] keeps
    the second [li] from closing the first. *)
Definition nestedItemEvents : list Event :=
  [Open "ol" []; Open "li" []; Open "span" []; Open "li" []; Open "ul" [];
   Close "ul"; Close "li"; Close "span"; Close "li"; Close "ol"].


(** ** Arrays *)

Lemma last_push {A} (arr : list A) (x : A) : last (push arr x) = Some x.
Proof.
  unfold push. induction arr as [|y arr IH]; simpl; [reflexivity|].
  destruct (arr ++ [x]) eqn:E; [destruct arr; discriminate|exact IH].
Qed.

Lemma pop_push {A} (arr : list A) (x : A) : pop (push arr x) = arr.
Proof. unfold pop, push. apply removelast_last. Qed.

Lemma last_split {A} (arr : list A) (x : A) :
  last arr = Some x -> arr = push (pop arr) x.
Proof.
  unfold push, pop. induction arr as [|y arr IH]; simpl; [discriminate|].
  destruct arr as [|z arr]; intros H.
  - injection H as ->. reflexivity.
  - simpl in *. f_equal. apply IH. exact H.
Qed.

Lemma length_push {A} (arr : list A) (x : A) :
  length (push arr x) = S (length arr).
Proof. unfold push. rewrite length_app. simpl. lia. Qed.

Lemma length_pop {A} (arr : list A) : length (pop arr) = pred (length arr).
Proof.
  unfold pop. induction arr as [|y arr IH]; simpl; [reflexivity|].
  destruct arr; simpl in *; [reflexivity|]. rewrite IH. reflexivity.
Qed.

Lemma last_None {A} (arr : list A) : last arr = None -> arr = [].
Proof.
  induction arr as [|y arr IH]; simpl; [reflexivity|].
  destruct arr; [discriminate|]. intros H. apply IH in H. discriminate.
Qed.

Lemma seq_Some (v : option string) (x : string) :
  seq v (Some x) = true <-> v = Some x.
Proof.
  destruct v as [y|]; simpl; split; intros H; try discriminate.
  - apply String.eqb_eq in H. subst. reflexivity.
  - injection H as ->. apply String.eqb_refl.
Qed.

Lemma countIndent_push tagTable names x :
  countIndent tagTable (push names x)
  = countIndent tagTable names + (if indentable tagTable x then 1 else 0).
Proof.
  unfold countIndent, push. rewrite filter_app, length_app. simpl.
  destruct (indentable tagTable x); reflexivity.
Qed.

Lemma countIndent_le tagTable names :
  countIndent tagTable names <= length names.
Proof. unfold countIndent. apply filter_length_le. Qed.

(** ** What each step leaves alone *)

Section Frames.

Variable tagTable : string -> option TableEntry.
Variable stripTags : bool.
Variable rebuildTag : string -> option Attrs -> option string -> string.
Variable repeat : option string -> nat -> string.

Lemma sameNesting_refl s : sameNesting s s.
Proof. repeat split. Qed.

Lemma sameNesting_trans s1 s2 s3 :
  sameNesting s1 s2 -> sameNesting s2 s3 -> sameNesting s1 s3.
Proof.
  unfold sameNesting. intros (A1 & A2 & A3 & A4 & A5) (B1 & B2 & B3 & B4 & B5).
  repeat split; congruence.
Qed.

Ltac frame :=
  repeat match goal with
         | |- context [if ?c then _ else _] => destruct c
         | |- context [match ?x with _ => _ end] => destruct x
         end; simpl; try apply sameNesting_refl; repeat split.

Lemma blockSpacing_nesting tg s : sameNesting s (blockSpacing tg s).
Proof. unfold blockSpacing. frame. Qed.

Lemma indentPrefix_nesting s s' :
  indentPrefix tagTable repeat s = Ok s' -> sameNesting s s'.
Proof.
  unfold indentPrefix. destruct (Nat.ltb 0 (length (indentStack s))).
  - destruct (tagTable _); [|discriminate]. intros [= <-]. repeat split.
  - intros [= <-]. apply sameNesting_refl.
Qed.

Lemma emitOpen_nesting tg s s' : emitOpen tg s = Ok s' -> sameNesting s s'.
Proof.
  unfold emitOpen. destruct (entryOpen tg); [|discriminate].
  destruct (negb _); [destruct (Nat.ltb 0 _)|]; intros [= <-]; repeat split.
Qed.

Lemma attrStep_nesting name attrs key a s :
  sameNesting s (attrStep name attrs key a s).
Proof. unfold attrStep. frame. Qed.

Lemma attrLoop_nesting name attrs keys s :
  sameNesting s (attrLoop name attrs keys s).
Proof.
  revert s. induction keys as [|[key a] keys IH]; intros s; simpl.
  - apply sameNesting_refl.
  - eapply sameNesting_trans; [apply attrStep_nesting|apply IH].
Qed.

Lemma reopenBlock_nesting s : sameNesting s (reopenBlock s).
Proof. unfold reopenBlock. frame. Qed.

Lemma trimCondition_trimNL s : trimCondition s = Ok (trimNL s).
Proof. unfold trimCondition. destruct (trimNL s); reflexivity. Qed.

Lemma ontext_total text s : exists s', ontext text s = Ok s'.
Proof.
  unfold ontext. destruct (Nat.ltb 0 _); [eexists; reflexivity|].
  rewrite trimCondition_trimNL. simpl. eexists; reflexivity.
Qed.

Lemma ontext_nesting text s s' : ontext text s = Ok s' -> sameNesting s s'.
Proof.
  unfold ontext. intros H.
  apply sameNesting_trans with (reopenBlock s); [apply reopenBlock_nesting|].
  destruct (Nat.ltb 0 _).
  - injection H as <-. repeat split.
  - rewrite trimCondition_trimNL in H. simpl in H. injection H as <-.
    repeat split.
Qed.

Lemma emitClose_nesting tg s s' : emitClose tg s = Ok s' -> sameNesting s s'.
Proof.
  unfold emitClose. destruct (negb (ignoreClose s)).
  - destruct (entryClose tg); [|discriminate].
    destruct (negb _); [destruct (Nat.ltb 0 _)|]; intros [= <-]; repeat split.
  - intros [= <-]. apply sameNesting_refl.
Qed.

Lemma emitClose_splicePos tg s s' :
  emitClose tg s = Ok s' -> splicePos s' = splicePos s.
Proof.
  unfold emitClose. destruct (negb (ignoreClose s)).
  - destruct (entryClose tg); [|discriminate].
    destruct (negb _); [destruct (Nat.ltb 0 _)|]; intros [= <-]; reflexivity.
  - intros [= <-]. reflexivity.
Qed.

Lemma popSplice_nesting name s : sameNesting s (popSplice name s).
Proof. unfold popSplice. frame. Qed.

Lemma closeSpacing_nesting tg s : sameNesting s (closeSpacing tg s).
Proof. unfold closeSpacing. frame. Qed.

(** The collapsing test reads [tagStack] after the new name was pushed, so
    it compares [code] with itself, never with [pre]. *)
Lemma collapsePre_after_push name s :
  last (tagStack s) = Some name -> collapsePre name s = s.
Proof.
  intros H. unfold collapsePre. rewrite H. simpl.
  destruct (String.eqb_spec name "code") as [->|]; reflexivity.
Qed.

Lemma tagStack_pushList name s : tagStack (pushList name s) = tagStack s.
Proof. unfold pushList. destruct (_ || _); reflexivity. Qed.

(** What [onopentag] leaves alone once a mapped tag is on [tagStack]. *)
Lemma onopentag_mapped name attrs s s' tg :
  tagTable (fst (openName name s)) = Some tg ->
  onopentag tagTable stripTags rebuildTag repeat name attrs s = Ok s' ->
  exists s2,
    sameNesting (opened name tg s) s2 /\
    sameNesting (pushIndent tg (fst (openName name s)) s2) s'.
Proof.
  unfold onopentag, opened. destruct (openName name s) as [name' s1]. simpl.
  intros -> H. simpl in H.
  rewrite collapsePre_after_push in H
    by (rewrite tagStack_pushList; simpl; apply last_push).
  set (s0 := pushList name' _) in *.
  destruct (indentPrefix _ _ (blockSpacing tg s0)) as [s2|] eqn:E2;
    [|discriminate].
  simpl in H. exists s2. split.
  - eapply sameNesting_trans;
      [apply blockSpacing_nesting|eapply indentPrefix_nesting; exact E2].
  - destruct (emitOpen tg _) as [s3|] eqn:E3; [|discriminate].
    simpl in H. injection H as <-.
    eapply sameNesting_trans; [eapply emitOpen_nesting; exact E3|].
    destruct (entryAttrs tg); [apply attrLoop_nesting|apply sameNesting_refl].
Qed.

Lemma onopentag_unmapped name attrs s :
  tagTable (fst (openName name s)) = None ->
  onopentag tagTable stripTags rebuildTag repeat name attrs s
  = Ok (let s1 := setTag None (snd (openName name s)) in
        if negb stripTags
        then setStack
               (push (stack s1) (rebuildTag name (Some attrs) (Some "open"))) s1
        else s1).
Proof.
  unfold onopentag. destruct (openName name s) as [name' s1]. simpl.
  intros ->. reflexivity.
Qed.

End Frames.

(** ** The nesting stacks across one event *)

Section Nesting.

Variable tagTable : string -> option TableEntry.
Variable stripTags : bool.
Variable rebuildTag : string -> option Attrs -> option string -> string.
Variable repeat : option string -> nat -> string.

Local Abbreviation onopentag :=
  (onopentag tagTable stripTags rebuildTag repeat).
Local Abbreviation onclosetag := (onclosetag tagTable stripTags rebuildTag).
Local Abbreviation handle := (handle tagTable stripTags rebuildTag repeat).
Local Abbreviation run := (run tagTable stripTags rebuildTag repeat).

Lemma openName_nesting name s :
  tagStack (snd (openName name s)) = tagStack s /\
  indentStack (snd (openName name s)) = indentStack s /\
  listStack (snd (openName name s)) = listStack s /\
  ignoreClose (snd (openName name s)) = ignoreClose s.
Proof. unfold openName. destruct (String.eqb name "li"); repeat split. Qed.

Lemma opened_stacks name tg s :
  tagStack (opened name tg s) = push (tagStack s) (fst (openName name s)) /\
  indentStack (opened name tg s) = indentStack s /\
  ignoreClose (opened name tg s) = ignoreClose s.
Proof.
  unfold opened. destruct (openName_nesting name s) as (T & I & _ & C).
  destruct (openName name s) as [name' s1]. simpl in *.
  unfold pushList. destruct (_ || _); simpl; rewrite T, I, C; repeat split.
Qed.

Lemma onopentag_stacks name attrs s s' :
  onopentag name attrs s = Ok s' ->
  let name' := fst (openName name s) in
  match tagTable name' with
  | Some tg =>
      tagStack s' = push (tagStack s) name' /\
      (indentStack s' = indentStack s \/
       truthy (entryIndent tg) = true /\
       indentStack s' = push (indentStack s) name')
  | None => tagStack s' = tagStack s /\ indentStack s' = indentStack s
  end.
Proof.
  intros H name'. subst name'.
  destruct (tagTable (fst (openName name s))) as [tg|] eqn:E.
  - destruct (onopentag_mapped _ _ _ _ _ _ _ _ _ E H)
      as (s2 & (T2 & I2 & _) & (T' & I' & _)).
    destruct (opened_stacks name tg s) as (T & I & _).
    split.
    + rewrite T'. unfold pushIndent.
      destruct (truthy _); [destruct (negb _)|]; simpl; congruence.
    + rewrite I'. unfold pushIndent.
      destruct (truthy (entryIndent tg)); [destruct (negb _)|]; simpl.
      * right. split; [reflexivity|congruence].
      * left. congruence.
      * left. congruence.
  - rewrite (onopentag_unmapped _ _ _ _ _ _ _ E) in H. injection H as <-.
    destruct (openName_nesting name s) as (T & I & _).
    destruct (negb stripTags); simpl; auto.
Qed.

Lemma closeName_nesting name s :
  let s1 := snd (closeName name (popList name s)) in
  tagStack s1 = tagStack s /\ indentStack s1 = indentStack s /\
  ignoreClose s1 = ignoreClose s /\ splicePos s1 = splicePos s /\
  (name <> "li" -> trimNL s1 = trimNL s).
Proof.
  unfold closeName, popList.
  destruct (String.eqb_spec name "li") as [->|N]; simpl.
  - repeat split. intros C. contradiction.
  - destruct (_ || _); repeat split.
Qed.

Lemma tagStack_popTag name s :
  tagStack (popTag name s)
  = (if seq (last (tagStack s)) (Some name)
     then pop (tagStack s) else tagStack s).
Proof. unfold popTag. destruct (seq _ _); reflexivity. Qed.

Lemma indentStack_popTag name s :
  indentStack (popTag name s) = indentStack s.
Proof. unfold popTag. destruct (seq _ _); reflexivity. Qed.

Lemma tagStack_resetIgnoreClose s :
  tagStack (resetIgnoreClose s) = tagStack s.
Proof. unfold resetIgnoreClose. destruct (ignoreClose s); reflexivity. Qed.

Lemma indentStack_resetIgnoreClose s :
  indentStack (resetIgnoreClose s) = indentStack s.
Proof. unfold resetIgnoreClose. destruct (ignoreClose s); reflexivity. Qed.

Lemma onclosetag_stacks name s s' :
  onclosetag name s = Ok s' ->
  let eff := closeEffective name s in
  match tagTable eff with
  | Some tg =>
      tagStack s'
      = (if seq (last (tagStack s)) (Some eff)
         then pop (tagStack s) else tagStack s) /\
      indentStack s'
      = (if truthy (entryIndent tg)
         then pop (indentStack s) else indentStack s)
  | None => tagStack s' = tagStack s /\ indentStack s' = indentStack s
  end.
Proof.
  unfold onclosetag, closeEffective.
  destruct (closeName_nesting name s) as (T & I & _).
  destruct (closeName name (popList name s)) as [eff s1]. simpl in *.
  destruct (tagTable eff) as [tg|]; simpl.
  - destruct (emitClose tg s1) as [s2|] eqn:E; [|discriminate]. simpl.
    apply emitClose_nesting in E. destruct E as (T2 & I2 & _).
    intros [= <-].
    destruct (closeSpacing_nesting tg (popSplice eff (popIndent tg s2)))
      as (T4 & I4 & _).
    destruct (popSplice_nesting eff (popIndent tg s2)) as (T3 & I3 & _).
    rewrite tagStack_resetIgnoreClose, indentStack_resetIgnoreClose.
    rewrite tagStack_popTag, indentStack_popTag, T4, I4, T3, I3.
    rewrite <- T, <- I, <- T2, <- I2.
    unfold popIndent. destruct (truthy (entryIndent tg)); split; reflexivity.
  - intros [= <-].
    rewrite tagStack_resetIgnoreClose, indentStack_resetIgnoreClose.
    destruct (negb stripTags); simpl; auto.
Qed.

(** The invariant behind the comparison of the two stacks: [indentStack]
    never holds more names than there are containers on [tagStack]. *)
Lemma handle_indent_count e s s' :
  handle e s = Ok s' ->
  length (indentStack s) <= countIndent tagTable (tagStack s) ->
  length (indentStack s') <= countIndent tagTable (tagStack s').
Proof.
  destruct e as [name attrs|text|name]; simpl; intros H Inv.
  - apply onopentag_stacks in H. simpl in H.
    destruct (tagTable (fst (openName name s))) as [tg|] eqn:E.
    + destruct H as (-> & [-> | (Tr & ->)]);
        rewrite countIndent_push; [lia|].
      rewrite length_push. unfold indentable. rewrite E, Tr. lia.
    + destruct H as (-> & ->). exact Inv.
  - apply ontext_nesting in H. destruct H as (-> & -> & _). exact Inv.
  - apply onclosetag_stacks in H. simpl in H.
    destruct (tagTable (closeEffective name s)) as [tg|] eqn:E.
    + destruct H as (-> & ->).
      destruct (seq (last (tagStack s)) (Some (closeEffective name s))) eqn:L.
      * apply seq_Some, last_split in L. rewrite L in Inv.
        rewrite countIndent_push in Inv. unfold indentable in Inv.
        rewrite E in Inv.
        destruct (truthy (entryIndent tg)); [rewrite length_pop|]; lia.
      * destruct (truthy (entryIndent tg)); [rewrite length_pop|]; lia.
    + destruct H as (-> & ->). exact Inv.
Qed.

Lemma run_indent_count events s s' :
  run events s = Ok s' ->
  length (indentStack s) <= countIndent tagTable (tagStack s) ->
  length (indentStack s') <= countIndent tagTable (tagStack s').
Proof.
  revert s. induction events as [|e events IH]; simpl; intros s H Inv.
  - injection H as <-. exact Inv.
  - destruct (handle e s) as [s1|] eqn:E; [|discriminate]. simpl in H.
    eapply IH; [exact H|]. eapply handle_indent_count; eassumption.
Qed.

(** C9. After every open, text or close event of a run that starts in the
    reset state, [tagStack] is at least as long as [indentStack], whose
    length is at least zero.  [events] is any sequence of events, so the
    bound holds after each of its prefixes, and for every dialect table. *)
Theorem tagStack_covers_indentStack events s :
  run events _init = Ok s ->
  length (indentStack s) <= length (tagStack s) /\
  0 <= length (indentStack s).
Proof.
  intros H. split; [|lia].
  apply run_indent_count in H; [|simpl; lia].
  pose proof (countIndent_le tagTable (tagStack s)). lia.
Qed.

End Nesting.

(** ** The close handler and the end-of-input loop *)

Section Closing.

Variable tagTable : string -> option TableEntry.
Variable stripTags : bool.
Variable rebuildTag : string -> option Attrs -> option string -> string.
Variable repeat : option string -> nat -> string.

Local Abbreviation onopentag :=
  (onopentag tagTable stripTags rebuildTag repeat).
Local Abbreviation onclosetag := (onclosetag tagTable stripTags rebuildTag).
Local Abbreviation run := (run tagTable stripTags rebuildTag repeat).
Local Abbreviation closeLoop := (closeLoop tagTable stripTags rebuildTag).
Local Abbreviation _closeUnclosedTags :=
  (_closeUnclosedTags tagTable stripTags rebuildTag).

Lemma emitClose_own t s : exists s', emitClose (Own t) s = Ok s'.
Proof.
  unfold emitClose. simpl.
  destruct (negb (ignoreClose s)); [|eexists; reflexivity].
  destruct (negb _); [destruct (Nat.ltb 0 _)|]; eexists; reflexivity.
Qed.

Lemma emitClose_error tg s e : emitClose tg s = Err e -> e = TypeError.
Proof.
  unfold emitClose. destruct (negb (ignoreClose s)); [|discriminate].
  destruct (entryClose tg); [|intros [= <-]; reflexivity].
  destruct (negb _); [destruct (Nat.ltb 0 _)|]; discriminate.
Qed.

Lemma onclosetag_error name s e : onclosetag name s = Err e -> e = TypeError.
Proof.
  unfold onclosetag.
  destruct (closeName name (popList name s)) as [eff s1].
  destruct (tagTable eff) as [tg|]; simpl; [|discriminate].
  destruct (emitClose tg s1) eqn:E; simpl; [discriminate|].
  intros [= <-]. eapply emitClose_error. exact E.
Qed.

(** What the steps after the close marker leave alone. *)
Lemma close_tail name tg s :
  let s' :=
    resetIgnoreClose
      (popTag name (closeSpacing tg (popSplice name (popIndent tg s)))) in
  splicePos s' = splicePos s /\ trimNL s' = trimNL s /\
  listStack s' = listStack s.
Proof.
  unfold resetIgnoreClose, popTag, closeSpacing, popSplice, popIndent.
  repeat match goal with
         | |- context [if ?c then _ else _] => destruct c; simpl
         end; repeat split.
Qed.

Lemma closeName_trimNL name s :
  trimNL (snd (closeName name (popList name s)))
  = (if String.eqb name "li" then false else trimNL s).
Proof.
  unfold closeName, popList.
  destruct (String.eqb name "li"); simpl; [reflexivity|].
  destruct (_ || _); reflexivity.
Qed.

Lemma onclosetag_fields name s s' :
  onclosetag name s = Ok s' ->
  splicePos s' = splicePos s /\
  trimNL s' = (if String.eqb name "li" then false else trimNL s).
Proof.
  unfold onclosetag.
  pose proof (closeName_trimNL name s) as Tr.
  destruct (closeName_nesting name s) as (_ & _ & _ & P & _).
  destruct (closeName name (popList name s)) as [eff s1]. simpl in *.
  destruct (tagTable eff) as [tg|]; simpl.
  - destruct (emitClose tg s1) as [s2|] eqn:E; [|discriminate]. simpl.
    intros [= <-].
    destruct (close_tail eff tg s2) as (-> & -> & _).
    rewrite (emitClose_splicePos _ _ _ E).
    apply emitClose_nesting in E. destruct E as (_ & _ & _ & -> & _).
    split; assumption.
  - intros [= <-]. unfold resetIgnoreClose.
    destruct (negb stripTags); simpl;
      destruct (ignoreClose s1); simpl; split; assumption.
Qed.

(** The bound handed to [closeLoop] is never used up. *)
Lemma closeLoop_enough fuel tag s :
  (truthy tag = true -> length (tagStack s) < fuel) ->
  closeLoop fuel tag s <> Err OutOfFuel.
Proof.
  revert tag s. induction fuel as [|fuel IH]; intros tag s Hlt; simpl.
  - destruct (truthy tag); [specialize (Hlt eq_refl); lia|discriminate].
  - destruct (truthy tag); [|discriminate]. specialize (Hlt eq_refl).
    destruct (onclosetag (toStr tag) s) as [s1|e] eqn:E; simpl.
    + specialize (IH (last (tagStack s1)) (setTagStack (pop (tagStack s1)) s1)).
      destruct (closeLoop fuel _ _) as [r|e]; simpl; [discriminate|].
      intros [= ->]. apply IH; [|reflexivity].
      intros Tr. simpl. rewrite length_pop.
      assert (length (tagStack s1) <= length (tagStack s)) as Hle.
      { apply onclosetag_stacks in E. simpl in E.
        destruct (tagTable _); destruct E as (-> & _); [|lia].
        destruct (seq _ _); [rewrite length_pop|]; lia. }
      destruct (tagStack s1); [discriminate|simpl in *; lia].
    + apply onclosetag_error in E. subst e. discriminate.
Qed.

Lemma closeLoop_fuel s : _closeUnclosedTags s <> Err OutOfFuel.
Proof.
  unfold _closeUnclosedTags. apply closeLoop_enough.
  intros Tr. simpl. rewrite length_pop.
  destruct (tagStack s); [discriminate|simpl; lia].
Qed.

(** C8, amended.  A close event whose effective name (the event's name, or
    the current list kind followed by [li] for an [li]) differs from the
    top of [tagStack] leaves [tagStack] as it is; when the table maps that
    name to nothing or to one of its own entries, the handler returns
    without an exception. *)
Theorem onclosetag_mismatch_keeps_tagStack name s :
  last (tagStack s) <> Some (closeEffective name s) ->
  tagTable (closeEffective name s) <> Some Inherited ->
  exists s', onclosetag name s = Ok s' /\ tagStack s' = tagStack s.
Proof.
  intros Top Entry.
  assert (exists s', onclosetag name s = Ok s') as [s' H].
  { revert Entry. unfold onclosetag, closeEffective.
    destruct (closeName name (popList name s)) as [eff s1]. simpl.
    destruct (tagTable eff) as [[t|]|]; simpl; intros Entry.
    - destruct (emitClose_own t s1) as [s2 ->]. simpl.
      eexists; reflexivity.
    - contradiction.
    - eexists; reflexivity. }
  exists s'. split; [exact H|].
  apply onclosetag_stacks in H. simpl in H.
  destruct (tagTable (closeEffective name s)); destruct H as (-> & _);
    [|reflexivity].
  destruct (seq _ _) eqn:L; [|reflexivity].
  apply seq_Some in L. contradiction.
Qed.

(** The open handler never raises the close-suppression flag. *)
Lemma onopentag_ignoreClose name attrs s s' :
  onopentag name attrs s = Ok s' -> ignoreClose s' = ignoreClose s.
Proof.
  intros H.
  destruct (tagTable (fst (openName name s))) as [tg|] eqn:E.
  - destruct (onopentag_mapped _ _ _ _ _ _ _ _ _ E H)
      as (s2 & (_ & _ & _ & _ & C2) & (_ & _ & _ & _ & C')).
    destruct (opened_stacks name tg s) as (_ & _ & C).
    rewrite C'. unfold pushIndent.
    destruct (truthy _); [destruct (negb _)|]; simpl; congruence.
  - rewrite (onopentag_unmapped _ _ _ _ _ _ _ E) in H. injection H as <-.
    destruct (openName_nesting name s) as (_ & _ & _ & C).
    destruct (negb stripTags); simpl; exact C.
Qed.

Lemma trimNL_opened name tg s :
  trimNL (opened name tg s) = (String.eqb name "li" || trimNL s).
Proof.
  unfold opened, openName, pushList.
  destruct (String.eqb name "li"); simpl; destruct (_ || _); reflexivity.
Qed.

Lemma trimNL_pushIndent tg name s : trimNL (pushIndent tg name s) = trimNL s.
Proof.
  unfold pushIndent. destruct (truthy _); [destruct (negb _)|]; reflexivity.
Qed.

Lemma onopentag_trimNL name attrs s s' :
  onopentag name attrs s = Ok s' ->
  trimNL s' = (String.eqb name "li" || trimNL s).
Proof.
  intros H.
  destruct (tagTable (fst (openName name s))) as [tg|] eqn:E.
  - destruct (onopentag_mapped _ _ _ _ _ _ _ _ _ E H)
      as (s2 & (_ & _ & _ & T2 & _) & (_ & _ & _ & T' & _)).
    rewrite T', trimNL_pushIndent, T2. apply trimNL_opened.
  - rewrite (onopentag_unmapped _ _ _ _ _ _ _ E) in H. injection H as <-.
    unfold openName.
    destruct (negb stripTags), (String.eqb name "li"); reflexivity.
Qed.

(** Trim mode stays on across any events other than the close of an item. *)
Lemma run_keeps_trimNL events s s' :
  Forall (fun e => e <> Close "li") events ->
  trimNL s = true -> run events s = Ok s' -> trimNL s' = true.
Proof.
  intros F. revert s. induction F as [|e events Hne F IH]; simpl; intros s Tr H.
  - injection H as <-. exact Tr.
  - destruct (handle tagTable stripTags rebuildTag repeat e s) as [s1|] eqn:E; [|discriminate].
    simpl in H. apply (IH s1); [|exact H].
    destruct e as [name attrs|text|name]; simpl in E.
    + apply onopentag_trimNL in E. rewrite E, Tr. apply orb_true_r.
    + apply ontext_nesting in E. destruct E as (_ & _ & _ & -> & _). exact Tr.
    + apply onclosetag_fields in E. destruct E as (_ & ->).
      destruct (String.eqb_spec name "li") as [->|]; [contradiction|exact Tr].
Qed.

End Closing.

(** ** The default dialect *)

Section DefaultDialect.

Variable stripTags : bool.
Variable rebuildTag : string -> option Attrs -> option string -> string.
Variable repeat : option string -> nat -> string.

Local Abbreviation onopentag :=
  (onopentag Dialect.defaultDialect stripTags rebuildTag repeat).
Local Abbreviation onclosetag :=
  (onclosetag Dialect.defaultDialect stripTags rebuildTag).
Local Abbreviation run :=
  (run Dialect.defaultDialect stripTags rebuildTag repeat).
Local Abbreviation _closeUnclosedTags :=
  (_closeUnclosedTags Dialect.defaultDialect stripTags rebuildTag).
Local Abbreviation write :=
  (write Dialect.defaultDialect stripTags rebuildTag repeat).

(** C1. An anchor whose [href] comes with the open event and whose text
    comes as a later text event: the buffer holds the text between the
    brackets, in front of the wrapped [href], and [write] returns the
    cleaned join of that buffer.  For
    [<a href="http://example.org">this is a test</a>] the result is
    [[this is a test](http://example.org)]. *)
Theorem anchor_text_before_href attrs text href :
  attrValue "href" attrs = Some href ->
  (exists s,
     run [Open "a" attrs; Text text; Close "a"] _init = Ok s /\
     stack s = ["["; text; "]"; "("; href; ")"] /\ tagStack s = []) /\
  write [Open "a" attrs; Text text; Close "a"]
  = Ok (cleanup ("[" ++ text ++ "](" ++ href ++ ")")) /\
  write [Open "a" [("href", "http://example.org")];
         Text "this is a test"; Close "a"]
  = Ok "[this is a test](http://example.org)".
Proof.
  intros H. split; [|split].
  - eexists. cbv -[attrValue]. rewrite H. repeat split.
  - cbv -[cleanup String.append attrValue]. rewrite H. reflexivity.
  - vm_compute. reflexivity.
Qed.

(** C2.  [<pre><code>]: the open handler pushes [code] onto [tagStack]
    before it compares the top of [tagStack] with [pre], so the collapsing
    branch is not taken: the flag stays down and the fragment of [pre]
    stays in the buffer. *)
Theorem pre_code_is_not_collapsed :
  (exists s,
     run [Open "pre" []; Open "code" []] _init = Ok s /\
     ignoreClose s = false /\
     stack s = ["`"; nlnl; ("```" ++ nl)%string]) /\
  write [Open "pre" []; Open "code" []; Text "x"; Close "code"; Close "pre"]
  = Ok ("`" ++ nlnl ++ "```" ++ nl ++ "x" ++ nl ++ "```" ++ nlnl ++ "`")%string.
Proof.
  split.
  - eexists. vm_compute. repeat split.
  - vm_compute. reflexivity.
Qed.

(** C4.  A run of three spaces leaves two behind, and a space in front of
    a line break survives when two spaces preceded it: each replacement is
    one pass over pairs that do not overlap. *)
Theorem cleanup_leaves_double_space :
  write [Text "a   b"] = Ok "a  b" /\
  write [Open "p" []; Text "a   "; Close "p"] = Ok ("a " ++ nlnl)%string.
Proof.
  split; vm_compute; reflexivity.
Qed.

(** C5.  [<h1>test</h1><h2>test</h2>]: the close marker of a heading in the
    table is one line feed and headings are not block tags, so each heading
    ends in one line feed. *)
Theorem headings_end_in_one_line_feed :
  write [Open "h1" []; Text "test"; Close "h1";
         Open "h2" []; Text "test"; Close "h2"]
  = Ok ("# test" ++ nl ++ "## test" ++ nl)%string.
Proof.
  vm_compute. reflexivity.
Qed.

(** C6.  Closing the [b] of [<a href="u"><b>x</b>y</a>]: the close marker
    goes in at [splicePos] and [splicePos] stays where it was, so the text
    that follows lands in front of the marker. *)
Theorem close_marker_does_not_advance_splicePos :
  run [Open "a" [("href", "u")]; Open "b" []; Text "x"] _init
  = Ok inAnchorBold /\
  (exists s',
     onclosetag "b" inAnchorBold = Ok s' /\
     stack s' = splice (stack inAnchorBold) (splicePos inAnchorBold) "**" /\
     splicePos s' = splicePos inAnchorBold) /\
  write [Open "a" [("href", "u")]; Open "b" []; Text "x"; Close "b";
         Text "y"; Close "a"]
  = Ok "[**xy**](u)".
Proof.
  split; [|split].
  - vm_compute. reflexivity.
  - eexists. vm_compute. repeat split.
  - vm_compute. reflexivity.
Qed.

(** The second half of the trim condition reads [this.text], which is
    [undefined], so the condition is the trim flag alone: handed a lone line
    break after a fragment that ends in one, the handler appends it. *)
Lemma lone_line_break_is_kept :
  (exists s,
     run [Text ("a" ++ nl)%string; Text nl] _init = Ok s /\
     stack s = [("a" ++ nl)%string; nl]) /\
  (forall s, trimCondition s = Ok (trimNL s)).
Proof.
  split.
  - eexists. vm_compute. repeat split.
  - apply trimCondition_trimNL.
Qed.

(** C10.  An [li] opened while [listStack] is empty is looked up as
    [undefinedli], which the dialect does not have: the handler touches none
    of the nesting stacks and at most appends the rebuilt tag, yet it turns
    trim mode on.  Trim mode then stays on over any events other than the
    close of an [li], which turns it off, and while it is on a text event
    outside a deferred insertion is appended without its line breaks. *)
Theorem li_outside_list_keeps_trimming attrs s :
  listStack s = [] ->
  Dialect.defaultDialect "undefinedli" = None /\
  exists s',
    onopentag "li" attrs s = Ok s' /\
    stack s'
    = (if stripTags then stack s
       else push (stack s) (rebuildTag "li" (Some attrs) (Some "open"))) /\
    tagStack s' = tagStack s /\ listStack s' = listStack s /\
    indentStack s' = indentStack s /\ spliceStack s' = spliceStack s /\
    trimNL s' = true /\
    (forall events s'',
        Forall (fun e => e <> Close "li") events ->
        run events s' = Ok s'' -> trimNL s'' = true) /\
    (forall s1 s2, onclosetag "li" s1 = Ok s2 -> trimNL s2 = false) /\
    (forall text s1,
        trimNL s1 = true -> spliceStack s1 = [] ->
        exists s2,
          ontext text s1 = Ok s2 /\ last (stack s2) = Some (remove1 LF text)).
Proof.
  intros L. split; [reflexivity|].
  eexists. split.
  { apply onopentag_unmapped. unfold openName. simpl. rewrite L. reflexivity. }
  unfold openName. simpl.
  repeat split.
  - destruct stripTags; reflexivity.
  - destruct stripTags; reflexivity.
  - destruct stripTags; reflexivity.
  - destruct stripTags; reflexivity.
  - destruct stripTags; reflexivity.
  - destruct stripTags; reflexivity.
  - intros events s'' F R.
    eapply run_keeps_trimNL; [exact F| |exact R].
    destruct stripTags; reflexivity.
  - intros s1 s2 H. apply onclosetag_fields in H. destruct H as (_ & ->).
    reflexivity.
  - intros text s1 Tr Sp. unfold ontext.
    destruct (reopenBlock_nesting s1) as (_ & _ & _ & Tr' & _).
    assert (spliceStack (reopenBlock s1) = []) as ->.
    { unfold reopenBlock. destruct (tag s1) as [[t|]|]; try exact Sp.
      destruct (_ && _); exact Sp. }
    simpl. rewrite trimCondition_trimNL, Tr', Tr. simpl.
    eexists. split; [reflexivity|]. simpl. apply last_push.
Qed.

End DefaultDialect.

(** ** A dialect given in the options *)

(** C3.  With a dialect that has no entry for [ul], the balanced markup
    [<ol><li><span><li><ul></ul></li></span></li></ol>] ends with three names
    on [tagStack], two of them equal neighbours: the close of the unmapped
    [ul] pops [listStack], so the closes of the two items look up
    [undefinedli] and pop nothing.  The loop at the end of the input then
    calls the close handler twice for the three names: it pops one [olli]
    and the handler itself pops the other. *)
Theorem nested_duplicate_closed_once
    (stripTags : bool)
    (rebuildTag : string -> option Attrs -> option string -> string)
    (repeat : option string -> nat -> string) :
  exists s calls s',
    run dialectWithoutUl stripTags rebuildTag repeat nestedItemEvents _init
    = Ok s /\
    tagStack s = ["ol"; "olli"; "olli"] /\
    _closeUnclosedTags dialectWithoutUl stripTags rebuildTag s
    = Ok (calls, s') /\
    calls = ["olli"; "ol"] /\ tagStack s' = [].
Proof.
  destruct stripTags; do 3 eexists; vm_compute; repeat split.
Qed.

(** ** Text as the spec words it *)



(** ** Concrete runs of the default renderer *)

(** C8, as stated, fails inside a list item: the close event is named [li],
    the top of [tagStack] is [ulli], and the handler pops it. *)
Lemma close_li_pops_the_item :
  Default.run [Open "ul" []; Open "li" []] _init = Ok inListItem /\
  last (tagStack inListItem) = Some "ulli" /\
  last (tagStack inListItem) <> Some "li" /\
  exists s',
    Default.onclosetag "li" inListItem = Ok s' /\
    tagStack s' = ["ul"] /\
    tagStack s' <> tagStack inListItem.
Proof.
  split; [vm_compute; reflexivity|].
  split; [reflexivity|].
  split; [discriminate|].
  eexists. split; [vm_compute; reflexivity|].
  split; [reflexivity|discriminate].
Qed.

(** A name that the table only inherits, such as [constructor], is truthy
    and has no markers: reading the length of its [close] throws, in the
    close handler as in the open handler. *)
Lemma inherited_name_throws :
  Dialect.defaultDialect "constructor" = Some Inherited /\
  Default.onclosetag "constructor" _init = Err TypeError /\
  Default.onopentag "constructor" [] _init = Err TypeError.
Proof. repeat split. Qed.

(** The hypotheses of the theorems above, met by concrete runs. *)
Lemma anchor_text_before_href_witness :
  attrValue "href" [("href", "http://example.org")] = Some "http://example.org" /\
  Default.write [Open "a" [("href", "http://example.org")];
                 Text "this is a test"; Close "a"]
  = Ok (cleanup "[this is a test](http://example.org)").
Proof.
  split; [reflexivity|].
  apply (anchor_text_before_href false rebuildTag repeat
           [("href", "http://example.org")] "this is a test"
           "http://example.org").
  reflexivity.
Defined.

Lemma onclosetag_mismatch_keeps_tagStack_witness :
  last (tagStack inListItem) <> Some (closeEffective "b" inListItem) /\
  Dialect.defaultDialect (closeEffective "b" inListItem) <> Some Inherited /\
  exists s',
    Default.onclosetag "b" inListItem = Ok s' /\
    tagStack s' = tagStack inListItem.
Proof.
  split; [vm_compute; discriminate|].
  split; [vm_compute; discriminate|].
  apply (onclosetag_mismatch_keeps_tagStack Dialect.defaultDialect false
           rebuildTag "b" inListItem).
  - vm_compute. discriminate.
  - vm_compute. discriminate.
Defined.

Lemma tagStack_covers_indentStack_witness :
  Default.run [Open "blockquote" []; Open "blockquote" []; Open "b" [];
               Text "x"] _init
  = Ok inNestedQuote /\
  length (indentStack inNestedQuote) <= length (tagStack inNestedQuote) /\
  0 <= length (indentStack inNestedQuote).
Proof.
  split; [vm_compute; reflexivity|].
  apply (tagStack_covers_indentStack Dialect.defaultDialect false rebuildTag
           repeat
           [Open "blockquote" []; Open "blockquote" []; Open "b" []; Text "x"]
           inNestedQuote).
  vm_compute. reflexivity.
Defined.


Lemma li_outside_list_keeps_trimming_witness :
  listStack _init = [] /\
  exists s',
    Default.onopentag "li" [] _init = Ok s' /\
    stack s' = ["<li>"] /\ tagStack s' = [] /\ trimNL s' = true.
Proof.
  split; [reflexivity|].
  destruct (li_outside_list_keeps_trimming false rebuildTag repeat [] _init
              eq_refl) as (_ & s' & H & St & T & _ & _ & _ & Tr & _).
  exists s'. repeat split; assumption.
Defined.

(** ** The clean-up of [write] *)

Lemma replace2_pair a b rep c d rest :
  replace2 a b rep (String c (String d rest))
  = if Ascii.eqb c a && Ascii.eqb d b
    then (rep ++ replace2 a b rep rest)%string
    else String c (replace2 a b rep (String d rest)).
Proof. reflexivity. Qed.

Lemma remove1_app c x y :
  remove1 c (x ++ y)%string = (remove1 c x ++ remove1 c y)%string.
Proof.
  induction x as [|d x IH]; simpl; [reflexivity|].
  destruct (Ascii.eqb d c); simpl; rewrite IH; reflexivity.
Qed.

Lemma remove1_cons c d rest :
  remove1 c (String d rest)
  = if Ascii.eqb d c then remove1 c rest else String d (remove1 c rest).
Proof. reflexivity. Qed.

(** Induction over a string that looks one character ahead, as
    [replace2] does. *)
Lemma string_pair_ind (P : string -> Prop) :
  P EmptyString ->
  (forall c, P (String c EmptyString)) ->
  (forall c d rest, P rest -> P (String d rest) -> P (String c (String d rest))) ->
  forall s, P s.
Proof.
  intros H0 H1 H2 s.
  assert (P s /\ forall c, P (String c s)) as [H _]; [|exact H].
  induction s as [|d s [IHs IHc]]; split; auto.
Qed.

Lemma replace2_keeps_others b rep :
  remove1 SP rep = remove1 SP (String SP (String b EmptyString)) ->
  forall s, remove1 SP (replace2 SP b rep s) = remove1 SP s.
Proof.
  intros Hrep s. induction s as [|c|c d rest IH1 IH2] using string_pair_ind;
    try reflexivity.
  rewrite replace2_pair.
  destruct (Ascii.eqb c SP && Ascii.eqb d b) eqn:E.
  - apply andb_true_iff in E. destruct E as [Ec Ed].
    apply Ascii.eqb_eq in Ec, Ed. subst c d.
    rewrite remove1_app, Hrep, IH1.
    change (String SP (String b rest))
      with (String SP (String b EmptyString) ++ rest)%string.
    rewrite remove1_app. reflexivity.
  - rewrite !(remove1_cons SP c), IH2. reflexivity.
Qed.

Lemma length_append x y :
  String.length (x ++ y)%string = String.length x + String.length y.
Proof. induction x as [|c x IH]; simpl; [reflexivity|]. rewrite IH. reflexivity. Qed.

Lemma replace2_length a b rep :
  String.length rep <= 2 ->
  forall s, String.length (replace2 a b rep s) <= String.length s.
Proof.
  intros Hrep s. induction s as [|c|c d rest IH1 IH2] using string_pair_ind;
    try (simpl; lia).
  rewrite replace2_pair. destruct (_ && _).
  - rewrite length_append. simpl. lia.
  - simpl String.length at 1. simpl String.length at 2. simpl in IH2. lia.
Qed.

Lemma replace2_tidy b rep s :
  b = SP \/ b = LF -> tidy s = true -> replace2 SP b rep s = s.
Proof.
  intros Hb. induction s as [|c|c d rest IH1 IH2] using string_pair_ind;
    try reflexivity.
  intros T. rewrite replace2_pair.
  change (tidy (String c (String d rest)))
    with (negb (Ascii.eqb c SP && (Ascii.eqb d SP || Ascii.eqb d LF))
          && tidy (String d rest)) in T.
  apply andb_true_iff in T. destruct T as [N T].
  rewrite (IH2 T).
  destruct (Ascii.eqb c SP); simpl in *; [|reflexivity].
  destruct Hb as [-> | ->]; destruct (Ascii.eqb d SP), (Ascii.eqb d LF);
    simpl in *; try discriminate; reflexivity.
Qed.

(** X17.  The clean-up removes nothing but spaces: without its spaces the
    cleaned text is the joined buffer without its spaces, and the cleaned
    text is never longer than the joined buffer. *)
Theorem cleanup_only_drops_spaces joined :
  remove1 SP (cleanup joined) = remove1 SP joined /\
  String.length (cleanup joined) <= String.length joined.
Proof.
  unfold cleanup. split.
  - rewrite (replace2_keeps_others LF nl eq_refl).
    apply (replace2_keeps_others SP " " eq_refl).
  - pose proof (replace2_length SP LF nl) as H1.
    pose proof (replace2_length SP SP " ") as H2.
    specialize (H1 ltac:(simpl; lia) (replace2 SP SP " " joined)).
    specialize (H2 ltac:(simpl; lia) joined). lia.
Qed.

(** X18.  A joined buffer in which no space is followed by a space or by a
    line feed comes out of the clean-up as it went in. *)
Theorem cleanup_fixes_tidy_text joined :
  tidy joined = true -> cleanup joined = joined.
Proof.
  intros T. unfold cleanup.
  rewrite (replace2_tidy SP " " joined (or_introl eq_refl) T).
  apply replace2_tidy; [right; reflexivity|exact T].
Qed.

(** ** The raw markup handed to the tokenizer *)

Lemma contains_remove1_same c s : contains c (remove1 c s) = false.
Proof.
  induction s as [|d s IH]; simpl; [reflexivity|].
  destruct (Ascii.eqb d c) eqn:E; simpl; [exact IH|].
  rewrite E, IH. reflexivity.
Qed.

Lemma contains_remove1_other c d s :
  contains c s = false -> contains c (remove1 d s) = false.
Proof.
  induction s as [|e s IH]; simpl; [reflexivity|].
  intros H. apply orb_false_iff in H. destruct H as [H1 H2].
  destruct (Ascii.eqb e d); simpl; [auto|]. rewrite H1. simpl. auto.
Qed.

Lemma remove1_absent c s : contains c s = false -> remove1 c s = s.
Proof.
  induction s as [|d s IH]; simpl; [reflexivity|].
  intros H. apply orb_false_iff in H. destruct H as [H1 H2].
  rewrite H1, (IH H2). reflexivity.
Qed.

(** X19.  What [write] hands to the tokenizer holds neither a line feed nor
    a tab; the stripping works chunk by chunk, and it changes nothing in
    markup that is already stripped. *)
Theorem stripRaw_removes_breaks html more :
  contains LF (stripRaw html) = false /\
  contains TAB (stripRaw html) = false /\
  stripRaw (html ++ more) = (stripRaw html ++ stripRaw more)%string /\
  stripRaw (stripRaw html) = stripRaw html.
Proof.
  unfold stripRaw.
  assert (contains LF (remove1 TAB (remove1 LF html)) = false) as HL.
  { apply contains_remove1_other, contains_remove1_same. }
  assert (contains TAB (remove1 TAB (remove1 LF html)) = false) as HT.
  { apply contains_remove1_same. }
  repeat split; try assumption.
  - rewrite !remove1_app. reflexivity.
  - rewrite (remove1_absent LF _ HL). apply remove1_absent. exact HT.
Qed.

(** ** Text events *)

Lemma length_splice {A} (arr : list A) pos x :
  length (splice arr pos x) = S (length arr).
Proof.
  unfold splice. rewrite length_app. simpl.
  rewrite <- (firstn_skipn pos arr) at 3. rewrite length_app. lia.
Qed.

Lemma splice_middle {A} (front back : list A) x :
  splice (front ++ back) (length front) x = front ++ x :: back.
Proof.
  unfold splice. rewrite firstn_app, skipn_app.
  rewrite Nat.sub_diag, firstn_all, skipn_all. simpl.
  rewrite app_nil_r. reflexivity.
Qed.

Lemma reopenBlock_fields s :
  spliceStack (reopenBlock s) = spliceStack s /\
  splicePos (reopenBlock s) = splicePos s /\
  tag (reopenBlock s) = tag s /\
  length (stack s) <= length (stack (reopenBlock s)).
Proof.
  unfold reopenBlock. destruct (tag s) as [[t|]|] eqn:E; auto.
  destruct (_ && _); simpl; auto.
  repeat split; [exact E|]. rewrite length_push. lia.
Qed.

Lemma reopenBlock_inline s :
  match tag s with Some tg => entryBlock tg = false | None => True end ->
  reopenBlock s = s.
Proof.
  unfold reopenBlock. destruct (tag s) as [[t|]|]; auto.
  simpl. intros ->. reflexivity.
Qed.

(** X1.  The text handler never throws, whatever the state: it adds one or
    two fragments to the buffer and leaves the nesting stacks, the flags,
    [spliceStack] and the current tag as they are. *)
Theorem ontext_never_throws text s :
  exists s',
    ontext text s = Ok s' /\ sameNesting s s' /\
    spliceStack s' = spliceStack s /\ tag s' = tag s /\
    length (stack s) < length (stack s') <= length (stack s) + 2.
Proof.
  destruct (ontext_total text s) as [s' H]. exists s'.
  split; [exact H|]. split; [eapply ontext_nesting; exact H|].
  revert H. unfold ontext.
  destruct (reopenBlock_fields s) as (Sp & _ & Tg & Len).
  assert (length (stack (reopenBlock s)) <= length (stack s) + 1) as Len'.
  { unfold reopenBlock. destruct (tag s) as [[t|]|]; try lia.
    destruct (_ && _); simpl; unfold push; rewrite ?length_app; simpl; lia. }
  destruct (Nat.ltb 0 _).
  - intros [= <-]. simpl. rewrite length_splice. repeat split; auto; lia.
  - rewrite trimCondition_trimNL. simpl. intros [= <-]. simpl.
    rewrite length_push. repeat split; auto; lia.
Qed.

Section Texts.

Variable tagTable : string -> option TableEntry.
Variable stripTags : bool.
Variable rebuildTag : string -> option Attrs -> option string -> string.
Variable repeat : option string -> nat -> string.

Local Abbreviation run := (run tagTable stripTags rebuildTag repeat).
Local Abbreviation write := (write tagTable stripTags rebuildTag repeat).

Lemma run_app events more s :
  run (events ++ more) s = (s1 <- run events s ;; run more s1).
Proof.
  revert s. induction events as [|e events IH]; intros s; simpl;
    [reflexivity|].
  destruct (handle tagTable stripTags rebuildTag repeat e s); simpl;
    [apply IH|reflexivity].
Qed.

(** Text outside any tag and outside trim mode is appended as it comes. *)
Lemma run_texts_appended texts s :
  match tag s with Some tg => entryBlock tg = false | None => True end ->
  spliceStack s = [] -> trimNL s = false ->
  run (map Text texts) s = Ok (setStack (stack s ++ texts) s).
Proof.
  revert s. induction texts as [|t texts IH]; intros s Tg Sp Tr; simpl.
  - rewrite app_nil_r. destruct s; reflexivity.
  - unfold ontext. rewrite (reopenBlock_inline s Tg), Sp. simpl.
    rewrite trimCondition_trimNL, Tr. simpl.
    rewrite IH; try assumption. simpl. unfold push.
    rewrite <- app_assoc. reflexivity.
Qed.

(** While a tag defers, text goes in at [splicePos], in arrival order. *)
Lemma run_texts_spliced texts s front back :
  match tag s with Some tg => entryBlock tg = false | None => True end ->
  spliceStack s <> [] ->
  stack s = front ++ back -> splicePos s = length front ->
  run (map Text texts) s
  = Ok (setSplicePos (length front + length texts)
          (setStack (front ++ texts ++ back) s)).
Proof.
  revert s front. induction texts as [|t texts IH]; intros s front Tg Sp St P;
    simpl.
  - rewrite Nat.add_0_r, <- St, <- P. destruct s; reflexivity.
  - unfold ontext. rewrite (reopenBlock_inline s Tg).
    destruct (spliceStack s) as [|x sp] eqn:E; [contradiction|]. simpl.
    rewrite (IH _ (front ++ [t])); simpl; try assumption.
    + rewrite length_app. simpl. rewrite <- !app_assoc. simpl.
      replace (length front + 1 + length texts)
        with (length front + S (length texts)) by lia.
      reflexivity.
    + rewrite E. discriminate.
    + rewrite St, P, splice_middle, <- app_assoc. reflexivity.
    + rewrite P, length_app. simpl. lia.
Qed.

(** X2.  Markup that is text only: whatever the dialect and the options,
    [write] returns the clean-up of the concatenated text events. *)
Theorem plain_text_passes_through texts :
  write (map Text texts) = Ok (cleanup (join texts)).
Proof.
  unfold write. rewrite run_texts_appended; simpl; auto.
Qed.

End Texts.

(** ** Attributes of the default dialect *)

Lemma append_empty_r x : (x ++ "")%string = x.
Proof. induction x as [|c x IH]; simpl; [reflexivity|]. rewrite IH. reflexivity. Qed.

Lemma append_assoc x y z : ((x ++ y) ++ z)%string = (x ++ y ++ z)%string.
Proof. induction x as [|c x IH]; simpl; [reflexivity|]. rewrite IH. reflexivity. Qed.

Lemma join_cons x rest : join (x :: rest) = (x ++ join rest)%string.
Proof.
  unfold join. destruct rest; simpl; [rewrite append_empty_r|]; reflexivity.
Qed.

Lemma join_app front back : join (front ++ back) = (join front ++ join back)%string.
Proof.
  induction front as [|x front IH]; [reflexivity|].
  simpl app. rewrite !join_cons, IH, append_assoc. reflexivity.
Qed.

Section Attributes.

Variable stripTags : bool.
Variable rebuildTag : string -> option Attrs -> option string -> string.
Variable repeat : option string -> nat -> string.

Local Abbreviation run :=
  (run Dialect.defaultDialect stripTags rebuildTag repeat).
Local Abbreviation write :=
  (write Dialect.defaultDialect stripTags rebuildTag repeat).

(** X5.  An image renders the attributes that the open event carries, [alt]
    between the brackets and [src] between the parentheses, in that order
    whatever their order in the event; an attribute that is missing leaves
    its wrapper empty. *)
Theorem image_renders_given_attributes attrs :
  write [Open "img" attrs; Close "img"]
  = Ok (cleanup ("![" ++ orEmpty (attrValue "alt" attrs) ++ "]("
                      ++ orEmpty (attrValue "src" attrs) ++ ")")).
Proof.
  cbv -[cleanup String.append attrValue orEmpty].
  destruct (attrValue "alt" attrs), (attrValue "src" attrs); reflexivity.
Qed.

(** X6.  An anchor whose content arrives as any number of text events: the
    texts land between the brackets in arrival order, in front of the
    wrapped [href]; without an [href] the parentheses stay empty. *)
Theorem anchor_collects_texts attrs texts :
  write (Open "a" attrs :: map Text texts ++ [Close "a"])
  = Ok (cleanup ("[" ++ join texts ++ "]("
                     ++ orEmpty (attrValue "href" attrs) ++ ")")).
Proof.
  unfold write.
  change (Open "a" attrs :: map Text texts ++ [Close "a"])
    with ([Open "a" attrs] ++ map Text texts ++ [Close "a"]).
  rewrite run_app.
  set (back := "]" :: "(" :: match attrValue "href" attrs with
                             | Some h => [h; ")"]
                             | None => [")"]
                             end).
  assert (run [Open "a" attrs] _init
          = Ok {| stack := ["["] ++ back; splicePos := 1; spliceStack := ["a"];
                  listStack := []; trimNL := false; tagStack := ["a"];
                  ignoreClose := false; indentStack := [];
                  tag := Some (Own Dialect.a) |}) as ->.
  { subst back. cbv -[attrValue]. destruct (attrValue "href" attrs); reflexivity. }
  simpl bind. rewrite run_app.
  rewrite (run_texts_spliced _ _ _ _ texts _ ["["] back);
    [|reflexivity|discriminate|reflexivity|reflexivity].
  simpl bind. rewrite join_cons, join_app. subst back.
  destruct (attrValue "href" attrs); reflexivity.
Qed.
End Attributes.

(** ** An open event and its close event *)

Lemma li_suffix_not_list x : listKind (x ++ "li") = false.
Proof.
  unfold listKind. apply orb_false_iff.
  split; apply String.eqb_neq; intros H;
    pose proof (f_equal String.length H) as L;
    rewrite length_append in L; simpl in L;
    destruct x; simpl in *; try discriminate; lia.
Qed.

Section Pairs.

Variable tagTable : string -> option TableEntry.
Variable stripTags : bool.
Variable rebuildTag : string -> option Attrs -> option string -> string.
Variable repeat : option string -> nat -> string.

Local Abbreviation onopentag :=
  (onopentag tagTable stripTags rebuildTag repeat).
Local Abbreviation onclosetag := (onclosetag tagTable stripTags rebuildTag).
Local Abbreviation run := (run tagTable stripTags rebuildTag repeat).

Lemma onclosetag_listStack name s s' :
  onclosetag name s = Ok s' ->
  listStack s' = (if listKind name then pop (listStack s) else listStack s).
Proof.
  unfold onclosetag.
  assert (listStack (snd (closeName name (popList name s)))
          = (if listKind name then pop (listStack s) else listStack s)) as L.
  { unfold closeName, popList, listKind.
    destruct (String.eqb_spec name "li") as [->|_]; simpl; [reflexivity|].
    destruct (_ || _); reflexivity. }
  destruct (closeName name (popList name s)) as [eff s1]. simpl in *.
  destruct (tagTable eff) as [tg|]; simpl.
  - destruct (emitClose tg s1) as [s2|] eqn:E; [|discriminate]. simpl.
    intros [= <-]. destruct (close_tail eff tg s2) as (_ & _ & ->).
    apply emitClose_nesting in E. destruct E as (_ & _ & -> & _). exact L.
  - intros [= <-]. unfold resetIgnoreClose.
    destruct (negb stripTags); simpl; destruct (ignoreClose s1); exact L.
Qed.

Lemma listStack_opened name tg s :
  listStack (opened name tg s)
  = (if listKind (fst (openName name s))
     then push (listStack s) (fst (openName name s)) else listStack s).
Proof.
  unfold opened, openName, pushList, listKind.
  destruct (String.eqb name "li"); simpl; destruct (_ || _); reflexivity.
Qed.

Lemma openName_li_suffix name s :
  name = "li" -> listKind (fst (openName name s)) = false.
Proof. intros ->. unfold openName. simpl. apply li_suffix_not_list. Qed.

(** X7.  An open event of a mapped tag followed at once by its close event
    puts [tagStack] and [listStack] back as they were.  [indentStack] comes
    back as well, unless the tag is indentable and exactly one list is open
    once it is opened: the open handler then pushes nothing, and the close
    handler still pops an entry. *)
Theorem open_then_close_restores_nesting name attrs s s' tg :
  tagTable (fst (openName name s)) = Some tg ->
  run [Open name attrs; Close name] s = Ok s' ->
  tagStack s' = tagStack s /\ listStack s' = listStack s /\
  indentStack s'
  = (if truthy (entryIndent tg)
        && Nat.eqb (length (listStack (opened name tg s))) 1
     then pop (indentStack s) else indentStack s).
Proof.
  intros E H. simpl in H.
  destruct (onopentag name attrs s) as [s1|] eqn:O; [|discriminate].
  simpl in H.
  destruct (onclosetag name s1) as [s2|] eqn:C; [|discriminate].
  simpl in H. injection H as <-.
  destruct (onopentag_mapped _ _ _ _ _ _ _ _ _ E O)
    as (s0 & (T0 & I0 & L0 & _) & (T1 & I1 & L1 & _)).
  destruct (opened_stacks name tg s) as (T & I & _).
  assert (listStack s1 = listStack (opened name tg s)) as L.
  { rewrite L1. unfold pushIndent.
    destruct (truthy _); [destruct (negb _)|]; simpl; exact L0. }
  assert (tagStack s1 = push (tagStack s) (fst (openName name s))) as T'.
  { rewrite T1. unfold pushIndent.
    destruct (truthy _); [destruct (negb _)|]; simpl; congruence. }
  assert (closeEffective name s1 = fst (openName name s)) as Eff.
  { unfold closeEffective, closeName, popList, openName.
    destruct (String.eqb_spec name "li") as [->|N]; simpl.
    - rewrite L, listStack_opened, openName_li_suffix; reflexivity.
    - reflexivity. }
  pose proof (onclosetag_listStack _ _ _ C) as LC.
  apply onclosetag_stacks in C. simpl in C. rewrite Eff, E in C.
  destruct C as (TC & IC).
  split; [|split].
  - rewrite TC, T', last_push. simpl. rewrite String.eqb_refl.
    apply pop_push.
  - rewrite LC, L, listStack_opened.
    destruct (String.eqb_spec name "li") as [->|N].
    + rewrite openName_li_suffix; reflexivity.
    + unfold openName. apply String.eqb_neq in N. rewrite N. simpl.
      destruct (listKind name); [apply pop_push|reflexivity].
  - rewrite IC, I1. unfold pushIndent. rewrite L0.
    destruct (truthy (entryIndent tg)); simpl; [|congruence].
    destruct (Nat.eqb _ 1); simpl; [congruence|].
    rewrite I0, I. apply pop_push.
Qed.

(** X3.  A tag that the table does not map (other than [li]): each of its
    two events at most appends the rebuilt tag at the end of the buffer,
    also while another tag defers, and appends nothing when tags are
    stripped.  The pair leaves [tagStack], [indentStack], [spliceStack],
    [splicePos] and trim mode alone; the close event pops [listStack] when
    the name is a list kind and leaves the suppression flag down. *)
Theorem unmapped_tag_passes_through name attrs s :
  name <> "li" -> tagTable name = None ->
  exists s1 s2,
    onopentag name attrs s = Ok s1 /\ onclosetag name s1 = Ok s2 /\
    stack s1
    = (if stripTags then stack s
       else push (stack s) (rebuildTag name (Some attrs) (Some "open"))) /\
    stack s2
    = (if stripTags then stack s1
       else push (stack s1) (rebuildTag name None None)) /\
    tagStack s2 = tagStack s /\ indentStack s2 = indentStack s /\
    spliceStack s2 = spliceStack s /\ splicePos s2 = splicePos s /\
    trimNL s2 = trimNL s /\
    listStack s2 = (if listKind name then pop (listStack s) else listStack s) /\
    ignoreClose s2 = false.
Proof.
  intros N E. apply String.eqb_neq in N.
  assert (openName name s = (name, s)) as ON.
  { unfold openName. rewrite N. reflexivity. }
  pose proof (onopentag_unmapped tagTable stripTags rebuildTag repeat
                name attrs s) as O.
  rewrite ON in O. specialize (O E). simpl in O.
  match type of O with _ = Ok ?x => exists x end. rewrite O. clear O.
  unfold onclosetag, closeName, popList, resetIgnoreClose, listKind.
  rewrite N.
  destruct stripTags, (String.eqb name "ol" || String.eqb name "ul"),
    (ignoreClose s) eqn:Ig;
    simpl; rewrite E; simpl; rewrite Ig; eexists; repeat split;
    simpl; auto.
Qed.

(** X4.  A tag whose entry has markers only (no block flag, no indent, no
    attributes), opened outside a deferred insertion and outside any
    indented context: open, text and close append the open marker, the
    text (without its line breaks in trim mode) and the close marker, and
    [tagStack] is back as it was. *)
Theorem inline_tag_wraps_text name attrs text o c s :
  name <> "li" -> tagTable name = Some (Own (Dialect.inline o c)) ->
  o <> "" -> c <> "" ->
  spliceStack s = [] -> indentStack s = [] -> ignoreClose s = false ->
  exists s',
    run [Open name attrs; Text text; Close name] s = Ok s' /\
    stack s'
    = stack s ++ [o; if trimNL s then remove1 LF text else text; c] /\
    tagStack s' = tagStack s.
Proof.
  intros N E No Nc Sp Ind Ig.
  apply String.eqb_neq in N, No, Nc.
  unfold run, handle, onopentag, openName. rewrite N. simpl. rewrite E.
  rewrite collapsePre_after_push
    by (rewrite tagStack_pushList; simpl; apply last_push).
  unfold pushList, blockSpacing, indentPrefix, pushIndent, emitOpen.
  unfold ontext, reopenBlock, onclosetag, popList, closeName, emitClose,
    popIndent, popSplice, closeSpacing, popTag, resetIgnoreClose.
  rewrite N.
  destruct (String.eqb name "ol" || String.eqb name "ul");
    repeat (progress (simpl;
                      rewrite ?Ind, ?Sp, ?No, ?Nc, ?Ig, ?E,
                        ?trimCondition_trimNL, ?last_push, ?String.eqb_refl));
    eexists; (split; [reflexivity|]); simpl; unfold push, pop;
    rewrite <- ?app_assoc; simpl; (split; [reflexivity|apply removelast_last]).
Qed.

End Pairs.

(** ** The handlers as pipelines of their steps *)

Section Pipelines.

Variable tagTable : string -> option TableEntry.
Variable stripTags : bool.
Variable rebuildTag : string -> option Attrs -> option string -> string.
Variable repeat : option string -> nat -> string.

Local Abbreviation onopentag :=
  (onopentag tagTable stripTags rebuildTag repeat).
Local Abbreviation onclosetag := (onclosetag tagTable stripTags rebuildTag).

Lemma onopentag_pipeline name attrs s s' tg :
  tagTable (fst (openName name s)) = Some tg ->
  onopentag name attrs s = Ok s' ->
  exists s2 s3,
    indentPrefix tagTable repeat (blockSpacing tg (opened name tg s)) = Ok s2 /\
    emitOpen tg (pushIndent tg (fst (openName name s)) s2) = Ok s3 /\
    s' = match entryAttrs tg with
         | Some keys => attrLoop (fst (openName name s)) attrs keys s3
         | None => s3
         end.
Proof.
  unfold onopentag, opened. destruct (openName name s) as [name' s1]. simpl.
  intros -> H. simpl in H.
  rewrite collapsePre_after_push in H
    by (rewrite tagStack_pushList; simpl; apply last_push).
  destruct (indentPrefix _ _ _) as [s2|] eqn:E2; [|discriminate]. simpl in H.
  destruct (emitOpen tg _) as [s3|] eqn:E3; [|discriminate]. simpl in H.
  injection H as <-. exists s2, s3. repeat split; assumption.
Qed.

Lemma onopentag_total name attrs s t :
  tagTable (fst (openName name s)) = Some (Own t) ->
  (forall n, In n (indentStack s) -> mapped tagTable n = true) ->
  exists s', onopentag name attrs s = Ok s'.
Proof.
  unfold onopentag. destruct (openName_nesting name s) as (_ & I & _).
  destruct (openName name s) as [name' s1]. simpl in *.
  intros -> J. simpl.
  rewrite collapsePre_after_push
    by (rewrite tagStack_pushList; simpl; apply last_push).
  set (s0 := blockSpacing _ _).
  assert (indentStack s0 = indentStack s) as I0.
  { subst s0. destruct (blockSpacing_nesting (Own t)
      (pushList name' (setTagStack (push (tagStack s1) name')
                         (setTag (Some (Own t)) s1)))) as (_ & -> & _).
    unfold pushList. destruct (_ || _); simpl; exact I. }
  assert (exists s2, indentPrefix tagTable repeat s0 = Ok s2) as [s2 ->].
  { unfold indentPrefix. rewrite I0.
    destruct (indentStack s) as [|x l] eqn:E; [eexists; reflexivity|].
    assert (In (toStr (last (x :: l))) (x :: l)) as HIn.
    { destruct (last (x :: l)) as [y|] eqn:L.
      - apply last_split in L. rewrite L. unfold push.
        apply in_or_app. right. left. reflexivity.
      - apply last_None in L. discriminate. }
    apply J in HIn. unfold mapped in HIn. simpl Nat.ltb.
    destruct (tagTable _); [eexists; reflexivity|discriminate]. }
  simpl. unfold emitOpen. simpl.
  destruct (negb _); [destruct (Nat.ltb 0 _)|]; simpl; eexists; reflexivity.
Qed.

Lemma onclosetag_pipeline name s s' :
  onclosetag name s = Ok s' ->
  let eff := closeEffective name s in
  let s1 := snd (closeName name (popList name s)) in
  match tagTable eff with
  | Some tg =>
      exists s2,
        emitClose tg s1 = Ok s2 /\
        s' = resetIgnoreClose
               (popTag eff (closeSpacing tg (popSplice eff (popIndent tg s2))))
  | None =>
      s' = resetIgnoreClose
             (if negb stripTags
              then setStack (push (stack s1) (rebuildTag name None None)) s1
              else s1)
  end.
Proof.
  unfold onclosetag, closeEffective.
  destruct (closeName name (popList name s)) as [eff s1]. simpl.
  destruct (tagTable eff) as [tg|]; simpl.
  - destruct (emitClose tg s1) as [s2|]; [|discriminate]. simpl.
    intros [= <-]. exists s2. split; reflexivity.
  - intros [= <-]. reflexivity.
Qed.

Lemma onclosetag_total name s :
  ownOrAbsent tagTable (closeEffective name s) ->
  exists s', onclosetag name s = Ok s'.
Proof.
  unfold onclosetag, closeEffective, ownOrAbsent.
  destruct (closeName name (popList name s)) as [eff s1]. simpl.
  destruct (tagTable eff) as [[t|]|]; simpl; intros H.
  - destruct (emitClose_own t s1) as [s2 ->]. simpl. eexists; reflexivity.
  - contradiction.
  - eexists; reflexivity.
Qed.

End Pipelines.

(** ** The buffer and the insertion point *)

Lemma grows_refl s : grows s s.
Proof. unfold grows. split; [lia|]. intros H. split; [exact H|lia]. Qed.

Lemma grows_trans s1 s2 s3 : grows s1 s2 -> grows s2 s3 -> grows s1 s3.
Proof.
  unfold grows. intros (A & B) (C & D). split; [lia|].
  intros H. destruct (B H) as (B1 & B2). destruct (D B1) as (D1 & D2).
  split; lia.
Qed.

Lemma grows_same s s' :
  stack s' = stack s -> splicePos s' = splicePos s -> grows s s'.
Proof. unfold grows. intros -> ->. split; [lia|]. intros H. split; [exact H|lia]. Qed.

Lemma grows_push x s : grows s (setStack (push (stack s) x) s).
Proof.
  unfold grows. simpl. rewrite length_push. split; [lia|]. intros H. lia.
Qed.

Lemma grows_splice x s :
  grows s (setSplicePos (S (splicePos s))
             (setStack (splice (stack s) (splicePos s) x) s)).
Proof.
  unfold grows. simpl. rewrite length_splice. split; [lia|]. intros H. lia.
Qed.

Lemma grows_splice_only x s :
  grows s (setStack (splice (stack s) (splicePos s) x) s).
Proof.
  unfold grows. simpl. rewrite length_splice. split; [lia|]. intros H. lia.
Qed.

Lemma blockSpacing_grows tg s : grows s (blockSpacing tg s).
Proof.
  unfold blockSpacing. destruct (_ && _); [|apply grows_refl].
  destruct (Nat.eqb _ 0); apply grows_push.
Qed.

Lemma emitOpen_grows tg s s' : emitOpen tg s = Ok s' -> grows s s'.
Proof.
  unfold emitOpen. destruct (entryOpen tg); [|discriminate].
  destruct (negb _); [destruct (Nat.ltb 0 _)|]; intros [= <-].
  - apply grows_splice.
  - apply grows_push.
  - apply grows_refl.
Qed.

Lemma attrStep_grows name attrs key a s : grows s (attrStep name attrs key a s).
Proof.
  unfold attrStep.
  eapply grows_trans; [apply (grows_push (attr_open a))|].
  eapply grows_trans; [|apply grows_push].
  destruct (String.eqb key "text").
  - unfold grows. simpl. split; [lia|]. intros H. lia.
  - destruct (attrValue key attrs); [apply grows_push|apply grows_refl].
Qed.

Lemma attrLoop_grows name attrs keys s : grows s (attrLoop name attrs keys s).
Proof.
  revert s. induction keys as [|[key a] keys IH]; intros s; simpl.
  - apply grows_refl.
  - eapply grows_trans; [apply attrStep_grows|apply IH].
Qed.

Lemma emitClose_grows tg s s' : emitClose tg s = Ok s' -> grows s s'.
Proof.
  unfold emitClose. destruct (negb (ignoreClose s)).
  - destruct (entryClose tg); [|discriminate].
    destruct (negb _); [destruct (Nat.ltb 0 _)|]; intros [= <-].
    + apply grows_splice_only.
    + apply grows_push.
    + apply grows_refl.
  - intros [= <-]. apply grows_refl.
Qed.

Lemma closeSpacing_grows tg s : grows s (closeSpacing tg s).
Proof.
  unfold closeSpacing. destruct (entryBlock tg); [|apply grows_refl].
  destruct (Nat.ltb _ 1); apply grows_push.
Qed.

Lemma reopenBlock_grows s : grows s (reopenBlock s).
Proof.
  unfold reopenBlock. destruct (tag s) as [[t|]|]; try apply grows_refl.
  destruct (_ && _); [apply grows_push|apply grows_refl].
Qed.

Lemma ontext_grows text s s' : ontext text s = Ok s' -> grows s s'.
Proof.
  unfold ontext. intros H.
  apply grows_trans with (reopenBlock s); [apply reopenBlock_grows|].
  destruct (Nat.ltb 0 _).
  - injection H as <-. apply grows_splice.
  - rewrite trimCondition_trimNL in H. simpl in H. injection H as <-.
    apply grows_push.
Qed.

Section Growth.

Variable tagTable : string -> option TableEntry.
Variable stripTags : bool.
Variable rebuildTag : string -> option Attrs -> option string -> string.
Variable repeat : option string -> nat -> string.

Local Abbreviation onopentag :=
  (onopentag tagTable stripTags rebuildTag repeat).
Local Abbreviation onclosetag := (onclosetag tagTable stripTags rebuildTag).
Local Abbreviation handle := (handle tagTable stripTags rebuildTag repeat).
Local Abbreviation run := (run tagTable stripTags rebuildTag repeat).

Lemma indentPrefix_grows s s' :
  indentPrefix tagTable repeat s = Ok s' -> grows s s'.
Proof.
  unfold indentPrefix. destruct (Nat.ltb 0 _).
  - destruct (tagTable _); [|discriminate]. intros [= <-]. apply grows_push.
  - intros [= <-]. apply grows_refl.
Qed.

Lemma onopentag_grows name attrs s s' :
  onopentag name attrs s = Ok s' -> grows s s'.
Proof.
  intros H.
  destruct (tagTable (fst (openName name s))) as [tg|] eqn:E.
  - destruct (onopentag_pipeline _ _ _ _ _ _ _ _ _ E H)
      as (s2 & s3 & E2 & E3 & ->).
    apply grows_trans with (opened name tg s).
    { apply grows_same; unfold opened, openName, pushList;
        destruct (String.eqb name "li"); simpl; destruct (_ || _);
        reflexivity. }
    eapply grows_trans; [apply (blockSpacing_grows tg)|].
    eapply grows_trans; [eapply indentPrefix_grows; exact E2|].
    apply grows_trans with (pushIndent tg (fst (openName name s)) s2).
    { apply grows_same; unfold pushIndent;
        destruct (truthy _); [destruct (negb _)| |destruct (negb _)|];
        reflexivity. }
    eapply grows_trans; [eapply emitOpen_grows; exact E3|].
    destruct (entryAttrs tg); [apply attrLoop_grows|apply grows_refl].
  - rewrite (onopentag_unmapped _ _ _ _ _ _ _ E) in H. injection H as <-.
    apply grows_trans with (setTag None (snd (openName name s))).
    { apply grows_same; unfold openName; destruct (String.eqb name "li");
        reflexivity. }
    destruct (negb stripTags); [|apply grows_refl].
    unfold grows. simpl. rewrite length_push. split; [lia|]. intros; lia.
Qed.

Lemma onclosetag_grows name s s' : onclosetag name s = Ok s' -> grows s s'.
Proof.
  intros H. apply onclosetag_pipeline in H. simpl in H.
  set (s1 := snd (closeName name (popList name s))) in *.
  assert (grows s s1) as G1.
  { apply grows_same; subst s1; unfold closeName, popList;
      destruct (String.eqb name "li"); simpl; try reflexivity;
      destruct (_ || _); reflexivity. }
  apply (grows_trans _ _ _ G1).
  destruct (tagTable (closeEffective name s)) as [tg|].
  - destruct H as (s2 & E & ->).
    eapply grows_trans; [eapply emitClose_grows; exact E|].
    set (eff := closeEffective name s).
    apply grows_trans with (popSplice eff (popIndent tg s2)).
    { apply grows_same; unfold popSplice, popIndent;
        destruct (truthy _); simpl; destruct (seq _ _); reflexivity. }
    eapply grows_trans; [apply (closeSpacing_grows tg)|].
    apply grows_same; unfold resetIgnoreClose, popTag;
      destruct (seq _ _); simpl; destruct (ignoreClose _); reflexivity.
  - subst s'. destruct (negb stripTags).
    + eapply grows_trans; [apply grows_push|].
      apply grows_same; unfold resetIgnoreClose; simpl;
        destruct (ignoreClose s1); reflexivity.
    + apply grows_same; unfold resetIgnoreClose;
        destruct (ignoreClose s1); reflexivity.
Qed.

Lemma handle_grows e s s' : handle e s = Ok s' -> grows s s'.
Proof.
  destruct e as [name attrs|text|name]; simpl.
  - apply onopentag_grows.
  - apply ontext_grows.
  - apply onclosetag_grows.
Qed.

Lemma run_grows events s s' : run events s = Ok s' -> grows s s'.
Proof.
  revert s. induction events as [|e events IH]; simpl; intros s H.
  - injection H as <-. apply grows_refl.
  - destruct (handle e s) as [s1|] eqn:E; [|discriminate]. simpl in H.
    eapply grows_trans; [eapply handle_grows; exact E|apply IH; exact H].
Qed.

(** X8.  No event ever takes a fragment out of the buffer, whatever the
    state: after an open, text or close event the buffer holds at least as
    many fragments as before. *)
Theorem buffer_never_shrinks e s s' :
  handle e s = Ok s' -> length (stack s) <= length (stack s').
Proof. intros H. apply handle_grows in H. destruct H as (H & _). exact H. Qed.

(** X9.  In a run from the reset state the insertion point always lies
    within the buffer, and further events never move it back. *)
Theorem splicePos_within_buffer events more s s' :
  run events _init = Ok s -> run more s = Ok s' ->
  splicePos s <= length (stack s) /\
  splicePos s <= splicePos s' <= length (stack s').
Proof.
  intros H1 H2. apply run_grows in H1, H2.
  destruct H1 as (_ & H1). simpl in H1. destruct (H1 (Nat.le_refl 0)) as (A & _).
  destruct H2 as (_ & H2). destruct (H2 A) as (B & C). lia.
Qed.

End Growth.

(** ** Flags and names across a run *)

Lemma Forall_pop {A} (P : A -> Prop) (arr : list A) :
  Forall P arr -> Forall P (pop arr).
Proof.
  unfold pop. induction 1 as [|x l Hx Hl IH]; simpl; [constructor|].
  destruct l; [constructor|]. constructor; assumption.
Qed.

Lemma Forall_push {A} (P : A -> Prop) (arr : list A) x :
  Forall P arr -> P x -> Forall P (push arr x).
Proof.
  intros H Hx. unfold push. apply Forall_app. split; [exact H|].
  constructor; [exact Hx|constructor].
Qed.

Lemma ignoreClose_reset s : ignoreClose (resetIgnoreClose s) = false.
Proof.
  unfold resetIgnoreClose. destruct (ignoreClose s) eqn:E; [reflexivity|exact E].
Qed.

Lemma spliceStack_attrLoop (P : string -> Prop) name attrs keys s :
  P name -> Forall P (spliceStack s) ->
  Forall P (spliceStack (attrLoop name attrs keys s)).
Proof.
  intros Hn. revert s. induction keys as [|[key a] keys IH]; intros s H; simpl;
    [exact H|].
  apply IH. unfold attrStep. destruct (String.eqb key "text"); simpl.
  - apply Forall_push; assumption.
  - destruct (attrValue key attrs); exact H.
Qed.

Lemma spliceStack_blockSpacing tg s :
  spliceStack (blockSpacing tg s) = spliceStack s.
Proof.
  unfold blockSpacing. destruct (_ && _); [destruct (Nat.eqb _ 0)|];
    reflexivity.
Qed.

Lemma spliceStack_emitOpen tg s s' :
  emitOpen tg s = Ok s' -> spliceStack s' = spliceStack s.
Proof.
  unfold emitOpen. destruct (entryOpen tg); [|discriminate].
  destruct (negb _); [destruct (Nat.ltb 0 _)|]; intros [= <-]; reflexivity.
Qed.

Lemma spliceStack_emitClose tg s s' :
  emitClose tg s = Ok s' -> spliceStack s' = spliceStack s.
Proof.
  unfold emitClose. destruct (negb (ignoreClose s)).
  - destruct (entryClose tg); [|discriminate].
    destruct (negb _); [destruct (Nat.ltb 0 _)|]; intros [= <-]; reflexivity.
  - intros [= <-]. reflexivity.
Qed.

Lemma spliceStack_pushIndent tg name s :
  spliceStack (pushIndent tg name s) = spliceStack s.
Proof.
  unfold pushIndent. destruct (truthy _); [destruct (negb _)|]; reflexivity.
Qed.

Lemma spliceStack_opened name tg s :
  spliceStack (opened name tg s) = spliceStack s.
Proof.
  unfold opened, openName, pushList.
  destruct (String.eqb name "li"); simpl; destruct (_ || _); reflexivity.
Qed.

Lemma spliceStack_ontext text s s' :
  ontext text s = Ok s' -> spliceStack s' = spliceStack s.
Proof.
  unfold ontext. destruct (reopenBlock_fields s) as (Sp & _).
  destruct (Nat.ltb 0 _).
  - intros [= <-]. exact Sp.
  - rewrite trimCondition_trimNL. simpl. intros [= <-]. exact Sp.
Qed.

Lemma spliceStack_close_tail (P : string -> Prop) name tg s :
  Forall P (spliceStack s) ->
  Forall P (spliceStack
              (resetIgnoreClose
                 (popTag name
                    (closeSpacing tg (popSplice name (popIndent tg s)))))).
Proof.
  intros H.
  assert (spliceStack (popIndent tg s) = spliceStack s) as E1.
  { unfold popIndent. destruct (truthy _); reflexivity. }
  assert (Forall P (spliceStack (popSplice name (popIndent tg s)))) as H2.
  { unfold popSplice. destruct (seq _ _); simpl; rewrite E1;
      [apply Forall_pop|]; exact H. }
  revert H2. generalize (popSplice name (popIndent tg s)). intros s2 H2.
  unfold resetIgnoreClose, popTag, closeSpacing.
  destruct (entryBlock tg); [destruct (Nat.ltb _ 1)|]; simpl;
    destruct (seq _ _); simpl; destruct (ignoreClose s2); exact H2.
Qed.

Section Names.

Variable tagTable : string -> option TableEntry.
Variable stripTags : bool.
Variable rebuildTag : string -> option Attrs -> option string -> string.
Variable repeat : option string -> nat -> string.

Local Abbreviation onopentag :=
  (onopentag tagTable stripTags rebuildTag repeat).
Local Abbreviation onclosetag := (onclosetag tagTable stripTags rebuildTag).
Local Abbreviation handle := (handle tagTable stripTags rebuildTag repeat).
Local Abbreviation run := (run tagTable stripTags rebuildTag repeat).

(** X10.  Whatever the state, also one in which the suppression flag is up,
    a close event that returns leaves the flag down: a suppression lasts
    for one close event. *)
Theorem onclosetag_clears_ignoreClose name s s' :
  onclosetag name s = Ok s' -> ignoreClose s' = false.
Proof.
  intros H. apply onclosetag_pipeline in H. simpl in H.
  destruct (tagTable _); [destruct H as (s2 & _ & ->)|subst s'];
    apply ignoreClose_reset.
Qed.

Lemma handle_ignoreClose e s s' :
  handle e s = Ok s' -> ignoreClose s = false -> ignoreClose s' = false.
Proof.
  destruct e as [name attrs|text|name]; simpl; intros H Ig.
  - apply onopentag_ignoreClose in H. congruence.
  - apply ontext_nesting in H. destruct H as (_ & _ & _ & _ & ->). exact Ig.
  - apply onclosetag_pipeline in H. simpl in H.
    destruct (tagTable _); [destruct H as (s2 & _ & ->)|subst s'];
      apply ignoreClose_reset.
Qed.

(** X11.  In a run from the reset state the suppression flag is never up:
    no sequence of events reaches a state in which a close marker would be
    suppressed. *)
Theorem ignoreClose_never_raised events s :
  run events _init = Ok s -> ignoreClose s = false.
Proof.
  assert (forall s0, ignoreClose s0 = false -> run events s0 = Ok s ->
                     ignoreClose s = false) as G.
  { induction events as [|e events IH]; simpl; intros s0 Ig H.
    - injection H as <-. exact Ig.
    - destruct (handle e s0) as [s1|] eqn:E; [|discriminate]. simpl in H.
      apply (IH s1); [|exact H]. eapply handle_ignoreClose; eassumption. }
  apply G. reflexivity.
Qed.


Lemma indentPrefix_spliceStack s s' :
  indentPrefix tagTable repeat s = Ok s' -> spliceStack s' = spliceStack s.
Proof.
  unfold indentPrefix. destruct (Nat.ltb 0 _).
  - destruct (tagTable _); [|discriminate]. intros [= <-]. reflexivity.
  - intros [= <-]. reflexivity.
Qed.

Lemma handle_namesKept e s s' :
  handle e s = Ok s' -> namesKept tagTable s -> namesKept tagTable s'.
Proof.
  unfold namesKept.
  destruct e as [name attrs|text|name]; simpl; intros H (T & I & L & Sp).
  - destruct (tagTable (fst (openName name s))) as [tg|] eqn:E.
    + pose proof (onopentag_stacks _ _ _ _ _ _ _ _ H) as St. simpl in St.
      rewrite E in St. destruct St as (-> & ISt).
      destruct (onopentag_mapped _ _ _ _ _ _ _ _ _ E H)
        as (s0 & (_ & _ & L0 & _) & (_ & _ & L1 & _)).
      destruct (onopentag_pipeline _ _ _ _ _ _ _ _ _ E H)
        as (s2 & s3 & E2 & E3 & Es').
      assert (owned tagTable (fst (openName name s)) = true) as M.
      { unfold owned. rewrite E. revert E3. unfold emitOpen.
        destruct tg; [reflexivity|discriminate]. }
      repeat split.
      * apply Forall_push; assumption.
      * destruct ISt as [-> | (Tr & ->)]; [exact I|].
        apply Forall_push; [exact I|]. unfold indentable. rewrite E. exact Tr.
      * rewrite L1. unfold pushIndent.
        destruct (truthy _); [destruct (negb _)|]; simpl; rewrite L0;
          rewrite listStack_opened;
          (destruct (listKind (fst (openName name s))) eqn:K;
           [apply Forall_push; assumption|exact L]).
      * assert (spliceStack s3 = spliceStack s) as S3.
        { rewrite (spliceStack_emitOpen _ _ _ E3), spliceStack_pushIndent.
          rewrite (indentPrefix_spliceStack _ _ E2), spliceStack_blockSpacing.
          apply spliceStack_opened. }
        subst s'. destruct (entryAttrs tg); [|rewrite S3; exact Sp].
        apply spliceStack_attrLoop; [exact M|rewrite S3; exact Sp].
    + rewrite (onopentag_unmapped _ _ _ _ _ _ _ E) in H. injection H as <-.
      unfold openName. destruct (String.eqb name "li"), (negb stripTags);
        simpl; repeat split; assumption.
  - pose proof (spliceStack_ontext _ _ _ H) as S1.
    apply ontext_nesting in H. destruct H as (-> & -> & -> & _).
    rewrite S1. repeat split; assumption.
  - pose proof (onclosetag_listStack _ _ _ _ _ _ H) as LC.
    pose proof (onclosetag_stacks _ _ _ _ _ _ H) as St. simpl in St.
    apply onclosetag_pipeline in H. simpl in H.
    assert (spliceStack (snd (closeName name (popList name s))) = spliceStack s)
      as S1.
    { unfold closeName, popList. destruct (String.eqb name "li"); simpl;
        destruct (_ || _); reflexivity. }
    destruct (tagTable (closeEffective name s)) as [tg|].
    + destruct St as (-> & ->). destruct H as (s2 & E & ->).
      repeat split.
      * destruct (seq _ _); [apply Forall_pop|]; exact T.
      * destruct (truthy _); [apply Forall_pop|]; exact I.
      * rewrite LC. destruct (listKind name); [apply Forall_pop|]; exact L.
      * apply spliceStack_close_tail.
        rewrite (spliceStack_emitClose _ _ _ E), S1. exact Sp.
    + destruct St as (-> & ->). subst s'. repeat split; try assumption.
      * rewrite LC. destruct (listKind name); [apply Forall_pop|]; exact L.
      * unfold resetIgnoreClose.
        destruct (negb stripTags); simpl;
          destruct (ignoreClose _); simpl; rewrite S1; exact Sp.
Qed.

(** X12.  In a run from the reset state every name on [tagStack] and on
    [spliceStack] is one that the table maps to an entry of its own, every
    name on [indentStack] is an indentable container of the table, and
    [listStack] holds nothing but [ol] and [ul]. *)
Theorem stacks_hold_mapped_names events s :
  run events _init = Ok s -> namesKept tagTable s.
Proof.
  assert (forall s0, namesKept tagTable s0 -> run events s0 = Ok s ->
                     namesKept tagTable s) as G.
  { induction events as [|e events IH]; simpl; intros s0 K H.
    - injection H as <-. exact K.
    - destruct (handle e s0) as [s1|] eqn:E; [|discriminate]. simpl in H.
      apply (IH s1); [|exact H]. eapply handle_namesKept; eassumption. }
  apply G. repeat split; constructor.
Qed.

End Names.

(** ** Runs that never throw *)

Lemma last_In {A} (arr : list A) x : last arr = Some x -> In x arr.
Proof.
  intros H. apply last_split in H. rewrite H. unfold push.
  apply in_or_app. right. left. reflexivity.
Qed.

Lemma In_pop {A} (arr : list A) x : In x (pop arr) -> In x arr.
Proof.
  unfold pop. induction arr as [|y arr IH]; simpl; [auto|].
  destruct arr; simpl in *; [contradiction|]. intros [H|H]; auto.
Qed.

Section Totality.

Variable tagTable : string -> option TableEntry.
Variable stripTags : bool.
Variable rebuildTag : string -> option Attrs -> option string -> string.
Variable repeat : option string -> nat -> string.

Local Abbreviation onopentag :=
  (onopentag tagTable stripTags rebuildTag repeat).
Local Abbreviation onclosetag := (onclosetag tagTable stripTags rebuildTag).
Local Abbreviation handle := (handle tagTable stripTags rebuildTag repeat).
Local Abbreviation run := (run tagTable stripTags rebuildTag repeat).
Local Abbreviation closeLoop := (closeLoop tagTable stripTags rebuildTag).
Local Abbreviation _closeUnclosedTags :=
  (_closeUnclosedTags tagTable stripTags rebuildTag).
Local Abbreviation write := (write tagTable stripTags rebuildTag repeat).

(** The name of every event, and every name made up for an [li], is either
    unmapped or mapped to an own entry. *)
Hypothesis itemNames : forall x, ownOrAbsent tagTable (x ++ "li").

Local Abbreviation eventOk :=
  (fun e => match eventName e with
            | Some n => ownOrAbsent tagTable n
            | None => True
            end).

Lemma handle_total e s :
  eventOk e -> namesKept tagTable s -> exists s', handle e s = Ok s'.
Proof.
  destruct e as [name attrs|text|name]; simpl; intros Hn K.
  - assert (ownOrAbsent tagTable (fst (openName name s))) as Ho.
    { unfold openName. destruct (String.eqb name "li"); simpl;
        [apply itemNames|exact Hn]. }
    destruct (tagTable (fst (openName name s))) as [[t|]|] eqn:E.
    + eapply onopentag_total; [exact E|].
      destruct K as (_ & I & _). intros n Hin.
      rewrite Forall_forall in I. specialize (I n Hin).
      unfold indentable in I. unfold mapped.
      destruct (tagTable n); [reflexivity|discriminate].
    + contradiction.
    + rewrite (onopentag_unmapped _ _ _ _ _ _ _ E). eexists; reflexivity.
  - apply ontext_total.
  - apply onclosetag_total. unfold closeEffective, closeName.
    destruct (String.eqb name "li"); simpl; [apply itemNames|exact Hn].
Qed.

Lemma run_total events s :
  Forall eventOk events -> namesKept tagTable s ->
  exists s', run events s = Ok s' /\ namesKept tagTable s'.
Proof.
  intros F. revert s. induction F as [|e events He F IH]; intros s K; simpl.
  - exists s. split; [reflexivity|exact K].
  - destruct (handle_total e s He K) as [s1 H1]. rewrite H1. simpl.
    apply IH. eapply handle_namesKept; eassumption.
Qed.

Lemma closeLoop_total fuel tag s :
  Forall (fun n => owned tagTable n = true) (tagStack s) ->
  (forall t, tag = Some t -> owned tagTable t = true) ->
  (truthy tag = true -> length (tagStack s) < fuel) ->
  exists r, closeLoop fuel tag s = Ok r.
Proof.
  revert tag s. induction fuel as [|fuel IH]; intros tag s K Kt Hlt; simpl.
  - destruct (truthy tag); [specialize (Hlt eq_refl); lia|].
    eexists; reflexivity.
  - destruct (truthy tag) eqn:Tr; [|eexists; reflexivity].
    specialize (Hlt eq_refl). destruct tag as [t|]; [|discriminate].
    specialize (Kt t eq_refl). simpl.
    destruct (onclosetag_total tagTable stripTags rebuildTag t s) as [s1 H1].
    { unfold closeEffective, closeName.
      destruct (String.eqb t "li"); simpl; [apply itemNames|].
      unfold ownOrAbsent. unfold owned in Kt.
      destruct (tagTable t) as [[?|]|]; discriminate. }
    rewrite H1. simpl.
    assert (Forall (fun n => owned tagTable n = true) (tagStack s1)
            /\ length (tagStack s1) <= length (tagStack s)) as (K1 & Len).
    { apply onclosetag_stacks in H1. simpl in H1.
      destruct (tagTable _); destruct H1 as (-> & _); [|split; [exact K|lia]].
      destruct (seq _ _); [|split; [exact K|lia]].
      split; [apply Forall_pop; exact K|rewrite length_pop; lia]. }
    destruct (IH (last (tagStack s1)) (setTagStack (pop (tagStack s1)) s1))
      as [r Hr].
    + simpl. apply Forall_pop. exact K1.
    + intros t' L. apply last_In in L. rewrite Forall_forall in K1. auto.
    + intros Tr'. simpl. rewrite length_pop.
      destruct (tagStack s1); [discriminate|simpl in *; lia].
    + rewrite Hr. simpl. eexists; reflexivity.
Qed.

Lemma write_total events :
  Forall eventOk events -> exists out, write events = Ok out.
Proof.
  intros F. unfold write.
  destruct (run_total events _init F) as (s & -> & K).
  { repeat split; constructor. }
  simpl. destruct (Nat.ltb 0 _); [|eexists; reflexivity].
  destruct (closeLoop_total (length (tagStack s)) (last (tagStack s))
              (setTagStack (pop (tagStack s)) s)) as [r Hr].
  - simpl. apply Forall_pop. apply K.
  - intros t L. apply last_In in L. destruct K as (K & _).
    rewrite Forall_forall in K. auto.
  - intros Tr. simpl. rewrite length_pop.
    destruct (tagStack s); [discriminate|simpl; lia].
  - unfold _closeUnclosedTags. rewrite Hr. simpl. eexists; reflexivity.
Qed.

End Totality.

(** X13.  With a dialect table whose entries all carry their open and close
    markers as strings, as the entries of [dialect.js] do, and which maps no
    name to an inherited member, [write] never throws: every sequence of
    events, balanced or not, yields a string.  (The tables of the model are
    these: an entry of its own always has both markers.) *)
Theorem table_without_inherited_never_throws
    tagTable stripTags rebuildTag repeat events :
  (forall n, ownOrAbsent tagTable n) ->
  exists out, write tagTable stripTags rebuildTag repeat events = Ok out.
Proof.
  intros H. apply write_total; [intros x; apply H|].
  apply Forall_forall. intros e _. destruct (eventName e); [apply H|exact I].
Qed.

Lemma endsWithLi_suffix x : endsWithLi (x ++ "li") = true.
Proof.
  induction x as [|c x IH]; [reflexivity|].
  destruct x as [|d x]; [reflexivity|].
  destruct x as [|e x]; [reflexivity|].
  exact IH.
Qed.

Lemma li_suffix_differs x key :
  endsWithLi key = false -> String.eqb (x ++ "li") key = false.
Proof.
  intros H. apply String.eqb_neq. intros <-.
  rewrite endsWithLi_suffix in H. discriminate.
Qed.

Lemma default_item_names x :
  ownOrAbsent Dialect.defaultDialect (x ++ "li").
Proof.
  unfold ownOrAbsent, Dialect.defaultDialect.
  destruct (assoc _ Dialect.entries); [discriminate|].
  unfold Dialect.inheritedKeys. simpl existsb.
  rewrite !li_suffix_differs by reflexivity. discriminate.
Qed.

Lemma plainName_ownOrAbsent e :
  plainName e = true ->
  match eventName e with
  | Some n => ownOrAbsent Dialect.defaultDialect n
  | None => True
  end.
Proof.
  unfold plainName. destruct (eventName e) as [n|]; [|trivial].
  intros H. apply negb_true_iff in H.
  unfold ownOrAbsent, Dialect.defaultDialect.
  destruct (assoc n Dialect.entries); [discriminate|].
  rewrite H. discriminate.
Qed.

(** X14.  With the default dialect [write] never throws as long as no tag
    is named like a member inherited from [Object.prototype]: unmapped
    tags, unbalanced and unclosed tags and list items outside a list all
    yield a string. *)
Theorem default_dialect_never_throws stripTags rebuildTag repeat events :
  Forall (fun e => plainName e = true) events ->
  exists out,
    write Dialect.defaultDialect stripTags rebuildTag repeat events = Ok out.
Proof.
  intros F. apply write_total; [apply default_item_names|].
  eapply Forall_impl; [|exact F]. apply plainName_ownOrAbsent.
Qed.

(** ** The end-of-input loop *)

Lemma adjacentDistinct_snoc names x :
  adjacentDistinct (names ++ [x]) = true ->
  last names <> Some x /\ adjacentDistinct names = true.
Proof.
  induction names as [|y names IH]; [split; [discriminate|reflexivity]|].
  destruct names as [|z names].
  - simpl. intros H. apply andb_true_iff in H. destruct H as (H & _).
    apply negb_true_iff, String.eqb_neq in H. split; [congruence|reflexivity].
  - intros H.
    change (adjacentDistinct ((y :: z :: names) ++ [x]))
      with (negb (String.eqb y z) && adjacentDistinct ((z :: names) ++ [x]))
      in H.
    apply andb_true_iff in H. destruct H as (H1 & H2).
    destruct (IH H2) as (L & A). split; [exact L|].
    change (adjacentDistinct (y :: z :: names))
      with (negb (String.eqb y z) && adjacentDistinct (z :: names)).
    rewrite H1, A. reflexivity.
Qed.

Lemma closeEffective_plain name s : name <> "li" -> closeEffective name s = name.
Proof.
  intros N. apply String.eqb_neq in N. unfold closeEffective, closeName.
  rewrite N. reflexivity.
Qed.

Section EndOfInput.

Variable tagTable : string -> option TableEntry.
Variable stripTags : bool.
Variable rebuildTag : string -> option Attrs -> option string -> string.

Local Abbreviation onclosetag := (onclosetag tagTable stripTags rebuildTag).
Local Abbreviation closeLoop := (closeLoop tagTable stripTags rebuildTag).
Local Abbreviation _closeUnclosedTags :=
  (_closeUnclosedTags tagTable stripTags rebuildTag).

Lemma onclosetag_tagStack_cases name s s' :
  onclosetag name s = Ok s' ->
  tagStack s' = tagStack s \/
  last (tagStack s) = Some (closeEffective name s) /\
  tagStack s' = pop (tagStack s).
Proof.
  intros H. apply onclosetag_stacks in H. simpl in H.
  destruct (tagTable _); destruct H as (-> & _); [|left; reflexivity].
  destruct (seq _ _) eqn:E; [right|left; reflexivity].
  apply seq_Some in E. split; [exact E|reflexivity].
Qed.

Lemma closeLoop_empties fuel tag s calls s' :
  ~ In "" (tagStack s) -> tag <> Some "" ->
  (tag = None -> tagStack s = []) ->
  closeLoop fuel tag s = Ok (calls, s') ->
  let n := length (tagStack s) + (match tag with Some _ => 1 | None => 0 end) in
  tagStack s' = [] /\ length calls <= n <= 2 * length calls /\
  forall c, In c calls -> tag = Some c \/ In c (tagStack s).
Proof.
  revert tag s calls s'.
  induction fuel as [|fuel IH]; intros tag s calls s' Hno Ht Hnone; simpl.
  - destruct tag as [t|]; simpl.
    + destruct (String.eqb_spec t "") as [->|]; [congruence|discriminate].
    + intros [= <- <-]. rewrite (Hnone eq_refl). simpl.
      repeat split; try lia; try (intros c []).
  - destruct tag as [t|]; simpl.
    + destruct (String.eqb_spec t "") as [->|Nt]; [congruence|]. simpl.
      destruct (onclosetag t s) as [s1|] eqn:E; [|discriminate]. simpl.
      destruct (closeLoop fuel _ _) as [[calls1 s3]|] eqn:R; [|discriminate].
      simpl. intros [= <- <-].
      assert (forall c, In c (tagStack s1) -> In c (tagStack s)) as Sub.
      { destruct (onclosetag_tagStack_cases _ _ _ E) as [-> | (_ & ->)];
          [auto|]. intros c. apply In_pop. }
      assert (length (tagStack s1) <= length (tagStack s) <=
              length (tagStack s1) + 1) as Len.
      { destruct (onclosetag_tagStack_cases _ _ _ E) as [-> | (L & ->)];
          [lia|]. rewrite length_pop. apply last_In in L.
        destruct (tagStack s); [contradiction|simpl; lia]. }
      apply IH in R.
      * simpl in R. rewrite length_pop in R.
        destruct R as (R1 & R2 & R3). split; [exact R1|]. split.
        { simpl. destruct (last (tagStack s1)) as [t'|] eqn:L.
          - apply last_In in L. destruct (tagStack s1); [contradiction|].
            simpl in *. lia.
          - apply last_None in L. rewrite L in *. simpl in *. lia. }
        intros c [<- | Hc]; [left; reflexivity|]. right.
        destruct (R3 c Hc) as [L | Hin].
        { apply Sub. apply last_In. exact L. }
        apply Sub. apply In_pop. exact Hin.
      * simpl. intros Hin. apply Hno, Sub, In_pop. exact Hin.
      * intros L. apply last_In in L. apply Hno, Sub. exact L.
      * intros L. apply last_None in L. simpl. rewrite L. reflexivity.
    + intros [= <- <-]. rewrite (Hnone eq_refl). simpl.
      repeat split; try lia; try (intros c []).
Qed.

(** X15.  When the loop at the end of the input returns, [tagStack] is
    empty (no empty name being on it).  It called the close handler at most
    once per name that was on the stack and at least once per two names,
    and only with names that were on the stack. *)
Theorem closeUnclosedTags_empties_tagStack s calls s' :
  ~ In "" (tagStack s) ->
  _closeUnclosedTags s = Ok (calls, s') ->
  tagStack s' = [] /\
  length calls <= length (tagStack s) <= 2 * length calls /\
  forall c, In c calls -> In c (tagStack s).
Proof.
  intros Hno H. unfold _closeUnclosedTags in H. apply closeLoop_empties in H.
  - simpl in H. rewrite length_pop in H. destruct H as (H1 & H2 & H3).
    split; [exact H1|]. split.
    + destruct (last (tagStack s)) as [t|] eqn:L.
      * apply last_In in L. destruct (tagStack s); [contradiction|].
        simpl in *. lia.
      * apply last_None in L. rewrite L in *. simpl in *. lia.
    + intros c Hc. destruct (H3 c Hc) as [L | Hin];
        [apply last_In; exact L|apply In_pop; exact Hin].
  - simpl. intros Hin. apply Hno, In_pop. exact Hin.
  - intros L. apply last_In in L. apply Hno. exact L.
  - intros L. apply last_None in L. simpl. rewrite L. reflexivity.
Qed.

Lemma closeLoop_reverse fuel names t s calls s' :
  tagStack s = names ->
  adjacentDistinct (names ++ [t]) = true ->
  ~ In "li" (names ++ [t]) -> ~ In "" (names ++ [t]) ->
  closeLoop fuel (Some t) s = Ok (calls, s') ->
  calls = t :: rev names.
Proof.
  revert names t s calls s'.
  induction fuel as [|fuel IH]; intros names t s calls s' Hs Adj Nli Nno; simpl.
  - destruct (String.eqb_spec t "") as [->|]; [|discriminate].
    exfalso. apply Nno, in_or_app. right. left. reflexivity.
  - destruct (String.eqb_spec t "") as [->|Nt].
    { exfalso. apply Nno, in_or_app. right. left. reflexivity. }
    simpl. destruct (onclosetag t s) as [s1|] eqn:E; [|discriminate]. simpl.
    destruct (closeLoop fuel _ _) as [[calls1 s3]|] eqn:R; [|discriminate].
    simpl. intros [= <- <-]. f_equal.
    destruct (adjacentDistinct_snoc _ _ Adj) as (Top & Adj').
    assert (t <> "li") as Tli.
    { intros ->. apply Nli, in_or_app. right. left. reflexivity. }
    assert (tagStack s1 = names) as S1.
    { destruct (onclosetag_tagStack_cases _ _ _ E) as [-> | (L & _)];
        [exact Hs|].
      rewrite (closeEffective_plain _ _ Tli), Hs in L. contradiction. }
    rewrite S1 in R.
    destruct (last names) as [t'|] eqn:L.
    + apply last_split in L. unfold push in L.
      remember (pop names) as front eqn:F. clear F. subst names.
      apply IH with (names := front) in R.
      * rewrite R, L, rev_app_distr. reflexivity.
      * reflexivity.
      * rewrite <- ?L. exact Adj'.
      * rewrite <- ?L. intros Hin. apply Nli, in_or_app. left. exact Hin.
      * rewrite <- ?L. intros Hin. apply Nno, in_or_app. left. exact Hin.
    + apply last_None in L. rewrite ?L. destruct fuel; simpl in R;
        injection R as <- _; reflexivity.
Qed.

(** X16.  When no two neighbours on [tagStack] are equal and no name on it
    is [li] or empty, the loop at the end of the input calls the close
    handler once for every name, the most recently opened first. *)
Theorem closeUnclosedTags_in_reverse_order s calls s' :
  adjacentDistinct (tagStack s) = true ->
  ~ In "li" (tagStack s) -> ~ In "" (tagStack s) ->
  _closeUnclosedTags s = Ok (calls, s') ->
  calls = rev (tagStack s).
Proof.
  intros Adj Nli Nno H. unfold _closeUnclosedTags in H.
  destruct (last (tagStack s)) as [t|] eqn:L.
  - apply last_split in L. unfold push in L.
    apply closeLoop_reverse with (names := pop (tagStack s)) in H.
    + rewrite H, L, rev_app_distr, <- L. reflexivity.
    + reflexivity.
    + rewrite <- L. exact Adj.
    + rewrite <- L. exact Nli.
    + rewrite <- L. exact Nno.
  - apply last_None in L. rewrite L in *.
    simpl in H. injection H as <- _. reflexivity.
Qed.

End EndOfInput.

(** ** The hypotheses of the further theorems, met by concrete runs *)

Lemma cleanup_fixes_tidy_text_witness :
  tidy "a b" = true /\ cleanup "a b" = "a b".
Proof.
  split; [reflexivity|]. apply cleanup_fixes_tidy_text. reflexivity.
Defined.

Lemma open_then_close_restores_nesting_witness :
  Dialect.defaultDialect (fst (openName "ul" inNestedQuote))
  = Some (Own Dialect.ul) /\
  exists s',
    Default.run [Open "ul" []; Close "ul"] inNestedQuote = Ok s' /\
    tagStack s' = tagStack inNestedQuote /\
    listStack s' = listStack inNestedQuote /\
    indentStack s' = ["blockquote"].
Proof.
  split; [reflexivity|].
  eexists. split; [vm_compute; reflexivity|].
  apply (open_then_close_restores_nesting Dialect.defaultDialect false
           rebuildTag repeat "ul" [] inNestedQuote _ (Own Dialect.ul)).
  - reflexivity.
  - vm_compute. reflexivity.
Defined.

Lemma unmapped_tag_passes_through_witness :
  "span" <> "li" /\ Dialect.defaultDialect "span" = None /\
  exists s1 s2,
    Default.onopentag "span" [] _init = Ok s1 /\
    Default.onclosetag "span" s1 = Ok s2 /\
    stack s2 = ["<span>"; "</span>"].
Proof.
  split; [discriminate|]. split; [reflexivity|].
  destruct (unmapped_tag_passes_through Dialect.defaultDialect false
              rebuildTag repeat "span" [] _init)
    as (s1 & s2 & H1 & H2 & St1 & St2 & _);
    [discriminate|reflexivity|].
  exists s1, s2. split; [exact H1|]. split; [exact H2|].
  rewrite St2, St1. reflexivity.
Defined.

Lemma inline_tag_wraps_text_witness :
  Dialect.defaultDialect "b" = Some (Own (Dialect.inline "**" "**")) /\
  exists s',
    Default.run [Open "b" []; Text "this is a test"; Close "b"] _init = Ok s' /\
    stack s' = ["**"; "this is a test"; "**"].
Proof.
  split; [reflexivity|].
  destruct (inline_tag_wraps_text Dialect.defaultDialect false rebuildTag
              repeat "b" [] "this is a test" "**" "**" _init)
    as (s' & H & St & _);
    [discriminate|reflexivity|discriminate|discriminate
    |reflexivity|reflexivity|reflexivity|].
  exists s'. split; [exact H|exact St].
Defined.

Lemma buffer_never_shrinks_witness :
  exists s',
    handle Dialect.defaultDialect false rebuildTag repeat (Close "b")
      inAnchorBold = Ok s' /\
    length (stack inAnchorBold) <= length (stack s').
Proof.
  eexists. split; [vm_compute; reflexivity|].
  apply (buffer_never_shrinks Dialect.defaultDialect false rebuildTag repeat
           (Close "b") inAnchorBold).
  vm_compute. reflexivity.
Defined.

Lemma splicePos_within_buffer_witness :
  Default.run [Open "a" [("href", "u")]; Open "b" []; Text "x"] _init
  = Ok inAnchorBold /\
  exists s',
    Default.run [Close "b"; Text "y"] inAnchorBold = Ok s' /\
    splicePos inAnchorBold <= length (stack inAnchorBold) /\
    splicePos inAnchorBold <= splicePos s' <= length (stack s').
Proof.
  split; [vm_compute; reflexivity|].
  eexists. split; [vm_compute; reflexivity|].
  apply (splicePos_within_buffer Dialect.defaultDialect false rebuildTag
           repeat [Open "a" [("href", "u")]; Open "b" []; Text "x"]
           [Close "b"; Text "y"] inAnchorBold).
  - vm_compute. reflexivity.
  - vm_compute. reflexivity.
Defined.

Lemma onclosetag_clears_ignoreClose_witness :
  ignoreClose (setIgnoreClose true inAnchorBold) = true /\
  exists s',
    Default.onclosetag "b" (setIgnoreClose true inAnchorBold) = Ok s' /\
    ignoreClose s' = false.
Proof.
  split; [reflexivity|].
  eexists. split; [vm_compute; reflexivity|].
  apply (onclosetag_clears_ignoreClose Dialect.defaultDialect false
           rebuildTag "b" (setIgnoreClose true inAnchorBold)).
  vm_compute. reflexivity.
Defined.

Lemma ignoreClose_never_raised_witness :
  Default.run [Open "a" [("href", "u")]; Open "b" []; Text "x"] _init
  = Ok inAnchorBold /\
  ignoreClose inAnchorBold = false.
Proof.
  split; [vm_compute; reflexivity|].
  apply (ignoreClose_never_raised Dialect.defaultDialect false rebuildTag
           repeat [Open "a" [("href", "u")]; Open "b" []; Text "x"]).
  vm_compute. reflexivity.
Defined.

Lemma stacks_hold_mapped_names_witness :
  Default.run [Open "blockquote" []; Open "blockquote" []; Open "b" [];
               Text "x"] _init
  = Ok inNestedQuote /\
  namesKept Dialect.defaultDialect inNestedQuote.
Proof.
  split; [vm_compute; reflexivity|].
  apply (stacks_hold_mapped_names Dialect.defaultDialect false rebuildTag
           repeat
           [Open "blockquote" []; Open "blockquote" []; Open "b" []; Text "x"]).
  vm_compute. reflexivity.
Defined.

Lemma table_without_inherited_never_throws_witness :
  bareDialect "constructor" = None /\
  exists out,
    write bareDialect false rebuildTag repeat
      [Open "constructor" []; Text "x"; Close "constructor"] = Ok out.
Proof.
  split; [reflexivity|].
  apply (table_without_inherited_never_throws bareDialect false rebuildTag
           repeat).
  intros n. unfold ownOrAbsent, bareDialect.
  destruct (assoc n Dialect.entries); discriminate.
Defined.

Lemma default_dialect_never_throws_witness :
  Forall (fun e => plainName e = true)
    [Open "li" []; Text "x"; Close "b"; Open "ul" []; Open "span" []] /\
  exists out,
    Default.write
      [Open "li" []; Text "x"; Close "b"; Open "ul" []; Open "span" []]
    = Ok out.
Proof.
  split; [repeat constructor|].
  apply (default_dialect_never_throws false rebuildTag repeat).
  repeat constructor.
Defined.

Lemma closeUnclosedTags_empties_tagStack_witness :
  ~ In "" (tagStack inNestedQuote) /\
  exists calls s',
    Default._closeUnclosedTags inNestedQuote = Ok (calls, s') /\
    tagStack s' = [] /\
    length calls <= length (tagStack inNestedQuote) <= 2 * length calls.
Proof.
  assert (~ In "" (tagStack inNestedQuote)) as N.
  { simpl. intros [H|[H|[H|[]]]]; discriminate. }
  split; [exact N|].
  do 2 eexists. split; [vm_compute; reflexivity|].
  destruct (closeUnclosedTags_empties_tagStack Dialect.defaultDialect false
              rebuildTag inNestedQuote _ _ N ltac:(vm_compute; reflexivity))
    as (H1 & H2 & _).
  split; [exact H1|exact H2].
Defined.

Lemma closeUnclosedTags_in_reverse_order_witness :
  adjacentDistinct (tagStack inAnchorBold) = true /\
  exists calls s',
    Default._closeUnclosedTags inAnchorBold = Ok (calls, s') /\
    calls = ["b"; "a"].
Proof.
  split; [reflexivity|].
  do 2 eexists. split; [vm_compute; reflexivity|].
  eapply (closeUnclosedTags_in_reverse_order Dialect.defaultDialect false
            rebuildTag inAnchorBold).
  - reflexivity.
  - simpl. intros [H'|[H'|[]]]; discriminate.
  - simpl. intros [H'|[H'|[]]]; discriminate.
  - vm_compute. reflexivity.
Defined.
